(** * REINFORCE with a learned baseline: the notebook's algorithmic core

    Shallow embedding of [Policy_Gradients_REINFORCE_learned_baseline.ipynb]:
    the return computer [compute_returns], the two-headed network [Net], and
    the training loop [reinforce_learned_baseline]. *)

From stdpp Require Import gmap list.
From Stdlib Require Import Reals Lra Floats Uint63.

(** ** Arithmetic interface

    The notebook computes on binary64 numbers (Python [float], numpy
    [float64]).  The numeric code is written once over an interface and run on
    two carriers: primitive binary64 floats, where it evaluates exactly as
    the Python does, and the real numbers, the exact arithmetic in which the
    algebraic laws of the algorithm hold. *)

Class Arith (A : Type) := {
  zero : A;
  add : A -> A -> A;
  sub : A -> A -> A;
  mul : A -> A -> A;
  div : A -> A -> A;
  sqrt : A -> A;
  of_nat : nat -> A
}.

#[global] Instance float_arith : Arith float := {|
  zero := 0%float;
  add := PrimFloat.add;
  sub := PrimFloat.sub;
  mul := PrimFloat.mul;
  div := PrimFloat.div;
  sqrt := PrimFloat.sqrt;
  of_nat n := PrimFloat.of_uint63 (Uint63.of_Z (Z.of_nat n))
|}.

#[global] Instance real_arith : Arith R := {|
  zero := 0%R;
  add := Rplus;
  sub := Rminus;
  mul := Rmult;
  div := Rdiv;
  sqrt := R_sqrt.sqrt;
  of_nat := INR
|}.

(** The notebook's [gamma = 0.99] as Python reads it: the binary64 number
    nearest to 0.99. *)
Definition gamma64 : float := 0x1.fae147ae147aep-1%float.

Module ReturnComputer.
Section Generic.
Context {A : Type} `{Arith A}.

(** Python's [sum(xs)]: left to right from the start value 0.  numpy's
    reductions add in the same order on fewer than 8 elements and pairwise in
    blocks beyond, which is the same number in exact arithmetic. *)
Definition pysum (xs : list A) : A := fold_left add xs zero.

(** [ndarray.mean()] and [np.mean]: the sum over the number of elements. *)
Definition mean (xs : list A) : A := div (pysum xs) (of_nat (length xs)).

(** [ndarray.std()] with the default [ddof = 0]: the square root of the mean
    of the squared deviations from the mean. *)
Definition std (xs : list A) : A :=
  let m := mean xs in
  sqrt (div (pysum (map (fun x => let d := sub x m in mul d d) xs))
            (of_nat (length xs))).

(** One iteration of the loop body,
    [R = rewards[step] + gamma * R; returns.insert(0, R)].
    The loop only visits indices below [len(rewards)], where [nth] is the
    element ([Heap.compute_returns] below performs the checked access). *)
Definition loop_body (rewards : list A) (gamma : A)
    (st : A * list A) (step : nat) : A * list A :=
  let '(R, returns) := st in
  let R := add (nth step rewards zero) (mul gamma R) in
  (R, R :: returns).

(** The loop [for step in reversed(range(len(rewards)))] started from
    [R = 0] and [returns = []]: the value of [returns] at loop exit, before
    normalization. *)
Definition discounted_returns (rewards : list A) (gamma : A) : list A :=
  snd (fold_left (loop_body rewards gamma)
                 (rev (seq 0 (length rewards))) (zero, [])).

(** [returns -= returns.mean()]. *)
Definition centre (returns : list A) : list A :=
  let m := mean returns in map (fun x => sub x m) returns.

(** [returns /= returns.std()]. *)
Definition scale (returns : list A) : list A :=
  let s := std returns in map (fun x => div x s) returns.

Definition compute_returns (rewards : list A) (gamma : A) : list A :=
  let returns := discounted_returns rewards gamma in
  let returns := centre returns in
  let returns := scale returns in
  returns.

(** The divisor of the last statement: [returns.std()] of the centred
    vector. *)
Definition normalization_divisor (rewards : list A) (gamma : A) : A :=
  std (centre (discounted_returns rewards gamma)).

(** [collections.deque(maxlen=...).append]: push on the right, then drop the
    leftmost element when the capacity is exceeded. *)
Definition deque_append (maxlen : nat) (d : list A) (x : A) : list A :=
  let d := d ++ [x] in
  if maxlen <? length d then tail d else d.
End Generic.
End ReturnComputer.

(** ** Exceptions

    A Python call either returns or raises. *)

Module Outcome.
Inductive error := IndexError | ShapeMismatch | DanglingReference.

Inductive result (X : Type) :=
| Ok (x : X)
| Err (e : error).
Arguments Ok {X} x.
Arguments Err {X} e.

#[global] Instance result_ret : MRet result := fun X x => Ok x.
#[global] Instance result_bind : MBind result := fun X Y f m =>
  match m with Ok x => f x | Err e => Err e end.
End Outcome.

(** ** The same function on a store of mutable sequences

    Python passes [rewards] by reference, [list.insert] and the augmented
    assignments [-=], [/=] update an object in place.  Here every list and
    array is an object of a store, and [compute_returns] is written statement
    by statement over it, so that what it writes to is visible. *)

Module Heap.
Export Outcome.
Import ReturnComputer.

Definition loc := nat.

Section Store.
Context {A : Type} `{Arith A}.

(** A computation reads and updates the store, and may raise. *)
Definition M (X : Type) : Type := gmap loc (list A) -> result (X * gmap loc (list A)).

#[global] Instance M_ret : MRet M := fun X x h => Ok (x, h).
#[global] Instance M_bind : MBind M := fun X Y f m h =>
  match m h with Ok (x, h') => f x h' | Err e => Err e end.

Definition raise {X} (e : error) : M X := fun _ => Err e.

(** A new object ([[]], [np.array(...)]) lives at an unused location. *)
Definition alloc (xs : list A) : M loc := fun h =>
  let l := fresh (dom h) in Ok (l, <[l := xs]> h).

Definition read (l : loc) : M (list A) := fun h =>
  match h !! l with Some xs => Ok (xs, h) | None => Err DanglingReference end.

Definition write (l : loc) (xs : list A) : M unit := fun h =>
  Ok (tt, <[l := xs]> h).

(** [len(l)]. *)
Definition len (l : loc) : M nat := xs ← read l; mret (length xs).

(** [l[i]] for [0 <= i]: raises out of range. *)
Definition getitem (l : loc) (i : nat) : M A :=
  xs ← read l;
  match xs !! i with Some x => mret x | None => raise IndexError end.

(** [l.insert(0, x)]. *)
Definition insert0 (l : loc) (x : A) : M unit :=
  xs ← read l; write l (x :: xs).

(** [np.array(l)]: a new array holding a copy of the list's elements. *)
Definition np_array (l : loc) : M loc := xs ← read l; alloc xs.

(** [a -= m] and [a /= s] on an array: in place. *)
Definition isub (a : loc) (m : A) : M unit :=
  xs ← read a; write a (map (fun x => sub x m) xs).

Definition idiv (a : loc) (s : A) : M unit :=
  xs ← read a; write a (map (fun x => div x s) xs).

Definition arr_mean (a : loc) : M A := xs ← read a; mret (mean xs).
Definition arr_std (a : loc) : M A := xs ← read a; mret (std xs).

(** [for step in steps: R = body(step, R)], the local [R] threaded through. *)
Fixpoint for_loop (steps : list nat) (body : nat -> A -> M A) (R : A) : M A :=
  match steps with
  | [] => mret R
  | step :: steps => R ← body step R; for_loop steps body R
  end.

Definition compute_returns (rewards : loc) (gamma : A) : M loc :=
  let R := zero in
  returns ← alloc [];
  n ← len rewards;
  _ ← for_loop (rev (seq 0 n)) (fun step R =>
         r ← getitem rewards step;
         let R := add r (mul gamma R) in
         _ ← insert0 returns R;
         mret R) R;
  returns ← np_array returns;
  m ← arr_mean returns;
  _ ← isub returns m;
  s ← arr_std returns;
  _ ← idiv returns s;
  mret returns.
End Store.
End Heap.

(** ** Tensors that carry their derivative

    A scalar entry of a [torch.Tensor] is its value, taken in exact
    arithmetic, together with its derivative with respect to the network
    parameters.  The parameters are the
    weights and biases of the three linear layers; the derivative is kept as
    the map sending a perturbation [d] of the parameters to the directional
    derivative along [d].  The gradient that [backward()] stores in a
    parameter is that map at the parameter's unit perturbation, and the
    gradient in a parameter group is zero exactly when the map vanishes on
    every perturbation confined to the group. *)

Module Torch.
Export Outcome.
Open Scope R_scope.

Record LinearParams := {
  lp_weight : nat -> nat -> R;      (* weight[i][j], shape (out, in) *)
  lp_bias : nat -> R
}.

Record Params := {
  shared : LinearParams;            (* fc_shared *)
  policy : LinearParams;            (* fc_policy *)
  value_function : LinearParams     (* fc_value_function *)
}.

Record Tensor := { data : R; jvp : Params -> R }.

(** A tensor without history: data from numpy, Python scalars. *)
Definition const (r : R) : Tensor := {| data := r; jvp := fun _ => 0 |}.

(** [x.detach()]: same data, cut from the graph. *)
Definition detach (x : Tensor) : Tensor := const (data x).

Definition t_add (x y : Tensor) : Tensor :=
  {| data := data x + data y; jvp := fun d => jvp x d + jvp y d |}.

Definition t_sub (x y : Tensor) : Tensor :=
  {| data := data x - data y; jvp := fun d => jvp x d - jvp y d |}.

Definition t_mul (x y : Tensor) : Tensor :=
  {| data := data x * data y;
     jvp := fun d => jvp x d * data y + data x * jvp y d |}.

Definition t_exp (x : Tensor) : Tensor :=
  {| data := exp (data x); jvp := fun d => exp (data x) * jvp x d |}.

Definition t_log (x : Tensor) : Tensor :=
  {| data := ln (data x); jvp := fun d => jvp x d / data x |}.

(** [F.relu]: the derivative is taken to be 0 at 0. *)
Definition relu (x : Tensor) : Tensor :=
  if Rlt_dec 0 (data x) then x else const 0.

Definition sign (r : R) : R :=
  if Rlt_dec 0 r then 1 else if Rlt_dec r 0 then -1 else 0.

(** [abs(x)]: the derivative is [sign(x)]. *)
Definition t_abs (x : Tensor) : Tensor :=
  {| data := Rabs (data x); jvp := fun d => sign (data x) * jvp x d |}.

(** [x ** 2]. *)
Definition t_pow2 (x : Tensor) : Tensor :=
  {| data := data x * data x; jvp := fun d => 2 * data x * jvp x d |}.

(** [torch.sum] of a one-dimensional tensor. *)
Definition t_sum (xs : list Tensor) : Tensor := fold_left t_add xs (const 0).

(** An elementwise binary operation on one-dimensional tensors: equal
    lengths pair up, a length-one operand is broadcast, anything else is a
    shape error. *)
Definition broadcast (f : Tensor -> Tensor -> Tensor)
    (xs ys : list Tensor) : result (list Tensor) :=
  if length xs =? length ys then Ok (zip_with f xs ys)
  else match xs, ys with
       | [x], _ => Ok (map (f x) ys)
       | _, [y] => Ok (map (fun x => f x y) xs)
       | _, _ => Err ShapeMismatch
       end.

(** *** [torch.distributions.Categorical] *)

Definition logsumexp (xs : list Tensor) : Tensor := t_log (t_sum (map t_exp xs)).

(** The object keeps the normalized logits
    [logits - logits.logsumexp(dim=-1, keepdim=True)].  The constructor's
    argument check, and failing it the sampler, raise on logits that are not
    numbers; the logits here are numbers, and parameters that hold NaN are
    dealt with where the network is called, in [Numerics.call_net]. *)
Record Categorical := { logits : list Tensor }.

Definition Categorical_init (logits : list Tensor) : Categorical :=
  {| logits := map (fun l => t_sub l (logsumexp logits)) logits |}.

(** The number of categories, the size of the last dimension of the logits. *)
Definition cardinality (dist : Categorical) : nat := length (logits dist).

Definition probs (dist : Categorical) : list R :=
  map (fun l => exp (data l)) (logits dist).

(** [dist.log_prob(action)]: the normalized logit at the action's index. *)
Definition log_prob (dist : Categorical) (action : nat) : result Tensor :=
  match logits dist !! action with
  | Some l => Ok l
  | None => Err IndexError
  end.

(** *** [nn.Linear] *)

Record Linear := {
  in_features : nat;
  out_features : nat;
  weight : nat -> nat -> Tensor;
  bias : nat -> Tensor
}.

(** [nn.Linear(in_features, out_features)], its parameters being the leaves
    [which theta] of the graph: the derivative of a leaf along [d] is the
    matching entry of [d]. *)
Definition Linear_init (in_features out_features : nat)
    (which : Params -> LinearParams) (theta : Params) : Linear :=
  {| in_features := in_features;
     out_features := out_features;
     weight := fun i j => {| data := lp_weight (which theta) i j;
                             jvp := fun d => lp_weight (which d) i j |};
     bias := fun i => {| data := lp_bias (which theta) i;
                         jvp := fun d => lp_bias (which d) i |} |}.

(** Row [i] of the weight times [x]. *)
Definition dot (row : nat -> Tensor) (x : list Tensor) : Tensor :=
  t_sum (imap (fun j xj => t_mul xj (row j)) x).

(** Calling the layer on a one-dimensional input: [x @ weight.T + bias],
    defined when the input has [in_features] entries. *)
Definition Linear_forward (l : Linear) (x : list Tensor) : result (list Tensor) :=
  if length x =? in_features l
  then Ok (map (fun i => t_add (dot (weight l i) x) (bias l i))
               (seq 0 (out_features l)))
  else Err ShapeMismatch.
End Torch.

(** ** The policy and value network *)

Module Policy.
Export Torch.

Record Net := {
  fc_shared : Linear;
  fc_policy : Linear;
  fc_value_function : Linear
}.

(** [Net.__init__(s_size, h_size, a_size)]; [theta] stands for the values the
    parameters hold (random at construction, the optimizer's afterwards). *)
Definition Net_init (s_size h_size a_size : nat) (theta : Params) : Net :=
  {| fc_shared := Linear_init s_size h_size shared theta;
     fc_policy := Linear_init h_size a_size policy theta;
     fc_value_function := Linear_init 128 1 value_function theta |}.

(** [Net()] with the default sizes [s_size=8, h_size=128, a_size=4]. *)
Definition Net_default : Params -> Net := Net_init 8 128 4.

(** The size of the environment's action space, [Discrete(4)]. *)
Definition action_space_n : nat := 4.

(** [Net.forward]. *)
Definition forward (net : Net) (x : list Tensor) : result (Categorical * list Tensor) :=
  x ← Linear_forward (fc_shared net) x;
  let x := map relu x in
  logits ← Linear_forward (fc_policy net) x;
  value ← Linear_forward (fc_value_function net) x;
  let dist := Categorical_init value in
  mret (dist, value).
End Policy.

(** ** The training loop *)

Module Trainer.
Export Policy.
Import ReturnComputer.

(** Hyperparameters, the notebook's globals; [gamma = 0.99] is taken as the
    exact fraction. *)
Definition gamma : R := 99 / 100.
Definition number_episodes : nat := 1250.

(** Perturbations of a single parameter, and the gradient they read off. *)
Definition zero_linear : LinearParams :=
  {| lp_weight := fun _ _ => 0; lp_bias := fun _ => 0 |}.

Inductive group := Shared | PolicyHead | ValueHead.

Definition in_group (g : group) (lp : LinearParams) : Params :=
  match g with
  | Shared => {| shared := lp; policy := zero_linear; value_function := zero_linear |}
  | PolicyHead => {| shared := zero_linear; policy := lp; value_function := zero_linear |}
  | ValueHead => {| shared := zero_linear; policy := zero_linear; value_function := lp |}
  end.

Definition unit_weight (g : group) (i j : nat) : Params :=
  in_group g {| lp_weight := fun i' j' => if decide (i' = i /\ j' = j) then 1 else 0;
                lp_bias := fun _ => 0 |}.

Definition unit_bias (g : group) (i : nat) : Params :=
  in_group g {| lp_weight := fun _ _ => 0;
                lp_bias := fun i' => if decide (i' = i) then 1 else 0 |}.

Definition grad_linear (loss : Tensor) (g : group) : LinearParams :=
  {| lp_weight := fun i j => jvp loss (unit_weight g i j);
     lp_bias := fun i => jvp loss (unit_bias g i) |}.

(** [loss.backward()]: the [.grad] of every parameter. *)
Definition backward (loss : Tensor) : Params :=
  {| shared := grad_linear loss Shared;
     policy := grad_linear loss PolicyHead;
     value_function := grad_linear loss ValueHead |}.

(** The three loss tensors of one episode. *)
Record Losses := {
  policy_loss : Tensor;
  value_function_loss : Tensor;
  loss : Tensor
}.

(** Steps 3 and 4 of the loop body: from [returns], [values] and [log_probs]
    (already concatenated) to the composite loss. *)
Definition assemble_loss (returns values log_probs : list Tensor) : result Losses :=
  delta ← broadcast t_sub returns values;
  let delta := map detach delta in
  weighted ← broadcast t_mul log_probs delta;
  let policy_loss := t_sum weighted in
  diff ← broadcast t_sub returns values;
  let value_function_loss :=
    t_mul (const (1 / 2)) (t_sum (map (fun x => t_pow2 (t_abs x)) diff)) in
  let loss := t_add policy_loss value_function_loss in
  mret {| policy_loss := policy_loss;
          value_function_loss := value_function_loss;
          loss := loss |}.

(** What the loop does to the outside, in order. *)
Inductive event :=
| EnvReset
| EnvStep (action : nat) (log_prob : R) (reward : R)
| ZeroGrad
| Backward (loss : R)
| OptimizerStep
| Print (episode : nat) (average : R).

Section Loop.
(** The collaborators: the gym environment, the sampler behind
    [dist.sample()], and the Adam optimizer. *)
Context {EnvState Rng OptState : Type}.
Variable env_reset : EnvState -> EnvState * list R.
Variable env_step : EnvState -> nat -> EnvState * (list R * R * bool).
Variable multinomial : Rng -> list R -> Rng * nat.
Variable optimizer_step : OptState -> Params -> Params -> OptState * Params.

(** [dist.sample()]: an index drawn according to [probs]. *)
Definition sample (dist : Categorical) (rng : Rng) : Rng * nat :=
  multinomial rng (probs dist).

Record Trajectory := {
  t_env : EnvState;
  t_rng : Rng;
  log_probs : list (list Tensor);
  values : list (list Tensor);
  rewards : list R;
  t_trace : list event
}.

(** The loop [for t in range(...)] that collects one trajectory; [steps] is
    the number of iterations left. *)
Fixpoint rollout (steps : nat) (net : Net) (state : list R) (tr : Trajectory)
    : result Trajectory :=
  match steps with
  | O => mret tr
  | S steps =>
    let state := map const state in
    '(dist, value) ← forward net state;
    let '(rng, action) := sample dist (t_rng tr) in
    log_prob ← log_prob dist action;
    let '(env, (state, reward, done)) := env_step (t_env tr) action in
    let tr := {| t_env := env;
                 t_rng := rng;
                 log_probs := log_probs tr ++ [[log_prob]];
                 values := values tr ++ [value];
                 rewards := rewards tr ++ [reward];
                 t_trace := t_trace tr ++ [EnvStep action (data log_prob) reward] |} in
    if done then mret tr else rollout steps net state tr
  end.

Record State := {
  env : EnvState;
  rng : Rng;
  params : Params;                  (* the values held by [net]'s parameters *)
  opt : OptState;
  scores : list R;
  scores_deque : list R;            (* [deque(maxlen=50)] *)
  trace : list event
}.

(** Step 1 of the loop body: reset the environment and collect a trajectory
    of at most 1000 steps with the current parameters. *)
Definition collect (st : State) : result Trajectory :=
  let net := Net_default (params st) in
  let '(env, state) := env_reset (env st) in
  rollout 1000 net state
    {| t_env := env; t_rng := rng st; log_probs := []; values := [];
       rewards := []; t_trace := trace st ++ [EnvReset] |}.

(** Steps 2 to 4: the returns of the trajectory and the loss, for a
    trajectory whose returns are numbers.  When [returns.std()] is 0 the
    division leaves the numbers; the episode loop in [Numerics] tests for it
    before it comes here. *)
Definition episode_loss (tr : Trajectory) : result Losses :=
  let returns := compute_returns (rewards tr) gamma in
  let returns := map const returns in
  let values := concat (values tr) in
  let log_probs := concat (log_probs tr) in
  assemble_loss returns values log_probs.
End Loop.
End Trainer.

(** ** The episode loop, with the numbers that are not finite

    The tensors above are real numbers; the program computes on
    floating-point numbers, and what it computes can be NaN or infinite.
    One case shows in exact arithmetic too: the division
    [returns /= returns.std()] when the standard deviation is 0, which is
    [0 / 0] in every entry (the centred returns are then all 0).  The others
    are the overflows and underflows of the floating-point arithmetic, which
    exact arithmetic cannot tell: they are taken from outside, as the
    environment's answers are.

    NaN in the returns spreads to [delta], to the loss and to the gradient
    in every parameter of the shared layer and of the value head, and
    [optimizer.step()] writes it into these parameters; [fc_policy], which
    has no gradient, is skipped.  From then on the value head's output is
    NaN whatever the observation, and [Categorical(logits=value)], or else
    the [dist.sample()] that follows it, raises.  The loop below runs the
    episodes with this written out: the parameters are the numbers
    [r_params], or they are marked [r_nan]. *)

Module Numerics.
Export Trainer.
Import ReturnComputer.

#[global] Instance R_eq_dec : EqDecision R := Req_EM_T.

Inductive failure :=
| Raised (e : error)      (* a shape or index error of the layers above *)
| NonFinite.              (* the error of Categorical, or of its sampler, on logits
                             that are not finite numbers *)

Inductive checked (X : Type) :=
| Fine (x : X)
| Fails (f : failure).

Arguments Fine {X} x.
Arguments Fails {X} f.

(** How a loop ends, and the state it had reached: [Failed] carries the
    state in which the exception was raised. *)
Inductive outcome (X : Type) :=
| Returned (x : X)
| Failed (f : failure) (x : X).

Arguments Returned {X} x.
Arguments Failed {X} f x.

(** The state a loop has reached, however it ended. *)
Definition final {X} (o : outcome X) : X :=
  match o with Returned x => x | Failed _ x => x end.

(** [dist, value = net(state)] followed by [dist.sample()]; [nonfinite] tells
    whether the value head's output, as the program computes it, is NaN or
    infinite.  The linear layers raise on a wrong shape whatever the numbers
    are; logits that are not finite are then refused. *)
Definition call_net (nonfinite : bool) (net : Net) (x : list Tensor)
    : checked (Categorical * list Tensor) :=
  match forward net x with
  | Err e => Fails (Raised e)
  | Ok (dist, value) => if nonfinite then Fails NonFinite else Fine (dist, value)
  end.

(** [returns.std() == 0]: every entry of [compute_returns(rewards, gamma)]
    is [0 / 0]. *)
Definition returns_are_nan (rewards : list R) : bool :=
  bool_decide (normalization_divisor rewards gamma = 0).

(** The events of a run: those of the loop on numbers, and the backward pass
    on a loss that is not a number, which has no number to show. *)
Inductive run_event :=
| Did (ev : event)
| BackwardNaN.

Section Loop.
Context {EnvState Rng OptState : Type}.
Variable env_reset : EnvState -> EnvState * list R.
Variable env_step : EnvState -> nat -> EnvState * (list R * R * bool).
Variable multinomial : Rng -> list R -> Rng * nat.
Variable optimizer_step : OptState -> Params -> Params -> OptState * Params.
(** The floating-point arithmetic, where it leaves the finite numbers:
    whether the value head's output on an observation is NaN or infinite for
    the given parameters, and whether the returns, the loss, the gradient or
    the updated parameters of an episode are. *)
Variable nonfinite_logits : Params -> list R -> bool.
Variable nonfinite_update : OptState -> Params -> @Trajectory EnvState Rng -> bool.

(** The loop [for t in range(...)] that collects one trajectory, the network
    being called through [call_net]; [nonfinite] tells of an observation
    whether the logits computed from it are not finite. *)
Fixpoint episode_steps (steps : nat) (nonfinite : list R -> bool) (net : Net)
    (state : list R) (tr : @Trajectory EnvState Rng)
    : outcome (@Trajectory EnvState Rng) :=
  match steps with
  | O => Returned tr
  | S steps =>
    match call_net (nonfinite state) net (map const state) with
    | Fails f => Failed f tr
    | Fine (dist, value) =>
      let '(rng, action) := sample multinomial dist (t_rng tr) in
      match log_prob dist action with
      | Err e => Failed (Raised e) tr
      | Ok log_prob =>
        let '(env, (state, reward, done)) := env_step (t_env tr) action in
        let tr := {| t_env := env;
                     t_rng := rng;
                     log_probs := log_probs tr ++ [[log_prob]];
                     values := values tr ++ [value];
                     rewards := rewards tr ++ [reward];
                     t_trace := t_trace tr ++ [EnvStep action (data log_prob) reward] |} in
        if done then Returned tr else episode_steps steps nonfinite net state tr
      end
    end
  end.

(** The variables of [reinforce_learned_baseline] between two episodes. *)
Record Progress := {
  r_env : EnvState;
  r_rng : Rng;
  r_params : Params;                (* the parameters, where they are numbers *)
  r_nan : bool;                     (* the shared layer and the value head hold NaN *)
  r_opt : OptState;
  r_scores : list R;
  r_scores_deque : list R;          (* [deque(maxlen=50)] *)
  r_trace : list run_event
}.

(** Step 1 of the loop body: reset the environment and collect a trajectory
    of at most 1000 steps. *)
Definition collect_trajectory (st : Progress) : outcome (@Trajectory EnvState Rng) :=
  let net := Net_default (r_params st) in
  let '(env, state) := env_reset (r_env st) in
  episode_steps 1000
    (fun state => r_nan st || nonfinite_logits (r_params st) state) net state
    {| t_env := env; t_rng := r_rng st; log_probs := []; values := [];
       rewards := []; t_trace := [EnvReset] |}.

(** One iteration of [for episode in range(1, number_episodes+1)].  The
    scores are recorded before the returns are computed.  With returns or a
    loss that are not finite numbers the three calls
    [zero_grad(); backward(); step()] are made all the same, and leave NaN
    in the parameters; the optimizer's own state is not looked at again. *)
Definition run_episode (st : Progress) (episode : nat) : outcome Progress :=
  match collect_trajectory st with
  | Failed f tr =>
    Failed f {| r_env := t_env tr; r_rng := t_rng tr;
                r_params := r_params st; r_nan := r_nan st; r_opt := r_opt st;
                r_scores := r_scores st; r_scores_deque := r_scores_deque st;
                r_trace := r_trace st ++ map Did (t_trace tr) |}
  | Returned tr =>
    let scores := r_scores st ++ [pysum (rewards tr)] in
    let scores_deque := deque_append 50 (r_scores_deque st) (pysum (rewards tr)) in
    let report :=
      if episode mod 50 =? 0
      then [Did (Print episode (mean scores_deque))]
      else [] in
    if returns_are_nan (rewards tr) || nonfinite_update (r_opt st) (r_params st) tr
    then
      Returned {| r_env := t_env tr; r_rng := t_rng tr;
                  r_params := r_params st; r_nan := true; r_opt := r_opt st;
                  r_scores := scores; r_scores_deque := scores_deque;
                  r_trace := r_trace st ++ map Did (t_trace tr)
                               ++ [Did ZeroGrad; BackwardNaN; Did OptimizerStep]
                               ++ report |}
    else
      match episode_loss tr with
      | Err e =>
        Failed (Raised e)
               {| r_env := t_env tr; r_rng := t_rng tr;
                  r_params := r_params st; r_nan := r_nan st; r_opt := r_opt st;
                  r_scores := scores; r_scores_deque := scores_deque;
                  r_trace := r_trace st ++ map Did (t_trace tr) |}
      | Ok l =>
        let grads := backward (loss l) in
        let '(opt, params) := optimizer_step (r_opt st) (r_params st) grads in
        Returned {| r_env := t_env tr; r_rng := t_rng tr;
                    r_params := params; r_nan := false; r_opt := opt;
                    r_scores := scores; r_scores_deque := scores_deque;
                    r_trace := r_trace st ++ map Did (t_trace tr)
                                 ++ [Did ZeroGrad; Did (Backward (data (loss l)));
                                     Did OptimizerStep]
                                 ++ report |}
      end
  end.

(** The episodes in [episodes], in order; an exception ends the run. *)
Fixpoint run_episodes (episodes : list nat) (st : Progress) : outcome Progress :=
  match episodes with
  | [] => Returned st
  | episode :: episodes =>
    match run_episode st episode with
    | Returned st => run_episodes episodes st
    | Failed f st => Failed f st
    end
  end.

(** [reinforce_learned_baseline]: [env], [rng], [theta] and [opt] are what
    [gym.make], the seeding, [Net()] and [optim.Adam] set up, and the number
    of episodes is the global the function reads (1250 in the notebook).  The
    parameters of a new [Net()] are numbers.  When the outcome is [Returned]
    the Python function returns the [net] and [scores] of the state. *)
Definition reinforce_learned_baseline (env : EnvState) (rng : Rng)
    (theta : Params) (opt : OptState) (number_episodes : nat) : outcome Progress :=
  run_episodes (seq 1 number_episodes)
    {| r_env := env; r_rng := rng; r_params := theta; r_nan := false; r_opt := opt;
       r_scores := []; r_scores_deque := []; r_trace := [] |}.
End Loop.
End Numerics.

(** * Vocabulary of the properties

    The notions in which the properties below are stated. *)

Module Vocabulary.
Import ReturnComputer Numerics.
#[local] Open Scope R_scope.

Section Generic.
Context {A : Type} `{Arith A}.

(** The returns of a suffix of the episode, by recursion on the suffix: the
    loop, read from its last iteration to its first. *)
Fixpoint returns_from (rewards : list A) (gamma : A) : list A :=
  match rewards with
  | [] => []
  | r :: rewards =>
    let G := returns_from rewards gamma in
    add r (mul gamma (hd zero G)) :: G
  end.
End Generic.

(** A vector all of whose entries are the same number. *)
Definition all_equal (xs : list R) : Prop :=
  forall x y, In x xs -> In y xs -> x = y.

(** The sum of the squared deviations from [m], the numerator of the
    variance. *)
Definition sumsq (m : R) (xs : list R) : R :=
  pysum (map (fun x => let d := sub x m in mul d d) xs).

(** [abs(x - target) <= tol], the comparison a numerical test makes. *)
Definition close (tol x target : float) : bool :=
  PrimFloat.leb (PrimFloat.abs (PrimFloat.sub x target)) tol.

(** The hidden activations [F.relu(self.fc_shared(x))]. *)
Definition hidden (net : Net) (x : list Tensor) : list Tensor :=
  map relu (map (fun i => t_add (dot (weight (fc_shared net) i) x) (bias (fc_shared net) i))
                (seq 0 (out_features (fc_shared net)))).

(** The single output of the value head on the hidden activations. *)
Definition value_of (net : Net) (x : list Tensor) : Tensor :=
  t_add (dot (weight (fc_value_function net) 0%nat) (hidden net x))
        (bias (fc_value_function net) 0%nat).

(** Tensors that do not move along the perturbation [d]. *)
Definition flat (d : Params) (t : Tensor) : Prop := jvp t d = 0.

(** The advantages [G_t - v_t], as numbers. *)
Definition advantages (returns : list R) (values : list Tensor) : list R :=
  zip_with Rminus returns (map data values).

(** The last [n] entries of a sequence. *)
Definition lastn {X} (n : nat) (xs : list X) : list X := drop (length xs - n) xs.

(** An environment step taken with action 0 whose recorded log-probability
    is 0. *)
Definition zero_step (ev : event) : Prop := exists r, ev = EnvStep 0 0 r.

Definition is_env_step (ev : event) : bool :=
  match ev with EnvStep _ _ _ => true | _ => false end.

(** The same, among the events of a run. *)
Definition is_step (ev : run_event) : bool :=
  match ev with Did ev => is_env_step ev | BackwardNaN => false end.

(** A backward pass, on a loss that is a number or on NaN. *)
Definition is_backward (ev : run_event) : bool :=
  match ev with Did (Backward _) | BackwardNaN => true | _ => false end.

Definition is_optimizer_step (ev : run_event) : bool :=
  match ev with Did OptimizerStep => true | _ => false end.

(** The events of one complete episode: the reset, the environment steps,
    then one [zero_grad(); backward(); step()], then the report if one is
    due. *)
Definition episode_events (episode : nat) (evs : list run_event) : Prop :=
  exists steps b report,
    evs = Did EnvReset :: map Did steps ++ [Did ZeroGrad; b; Did OptimizerStep] ++ report /\
    steps <> [] /\ Forall (fun ev => is_env_step ev = true) steps /\
    is_backward b = true /\
    (report = [] \/ exists average, report = [Did (Print episode average)]).

Fixpoint count {X} (p : X -> bool) (evs : list X) : nat :=
  match evs with
  | [] => 0
  | ev :: evs => (if p ev then 1 else 0) + count p evs
  end.


(** An episode that was left at a call of the network: the environment has
    been reset and stepped, each step with action 0, and nothing else has
    changed. *)
Definition interrupted {EnvState Rng OptState : Type}
    (st st' : @Progress EnvState Rng OptState) : Prop :=
  (exists steps,
     r_trace st' = r_trace st ++ Did EnvReset :: map Did steps /\
     Forall zero_step steps /\ (length steps < 1000)%nat /\
     (r_nan st = true -> steps = [])) /\
  r_scores st' = r_scores st /\
  r_scores_deque st' = r_scores_deque st /\
  r_params st' = r_params st /\
  r_nan st' = r_nan st.

(** What holds of a trajectory under collection: every recorded
    log-probability is the constant 0, every recorded value is a single
    entry that the policy head does not influence, and the three lists grow
    together. *)
Record trajectory_ok {EnvState Rng : Type} (tr : @Trajectory EnvState Rng) : Prop := {
  ok_log_probs :
    Forall (fun lp => exists t, lp = [t] /\ data t = 0 /\ forall d, jvp t d = 0)
           (log_probs tr);
  ok_values :
    Forall (fun v => length v = 1%nat /\
                     forall lp, Forall (flat (in_group PolicyHead lp)) v)
           (values tr);
  ok_log_probs_length : length (log_probs tr) = length (rewards tr);
  ok_values_length : length (values tr) = length (rewards tr)
}.
End Vocabulary.

(** * A small instance

    Concrete collaborators on which the general statements are exercised: an
    environment whose episodes last two steps, a sampler that returns the
    first index, and plain gradient descent in the optimizer's place. *)

Module Demo.
Import Trainer.
#[local] Open Scope R_scope.

Definition zeros : list R := repeat 0 8.

(** Observations are 8 zeros; the state counts the steps of the episode, the
    rewards are 0 then 1, and the second step ends the episode. *)
Definition demo_reset (e : nat) : nat * list R := (0%nat, zeros).

Definition demo_step (e : nat) (action : nat) : nat * (list R * R * bool) :=
  (S e, (zeros, INR e, (1 <=? e)%nat)).

Definition first_index (g : unit) (ps : list R) : unit * nat := (g, 0%nat).

Definition descend (lr : R) (theta grads : LinearParams) : LinearParams :=
  {| lp_weight := fun i j => lp_weight theta i j - lr * lp_weight grads i j;
     lp_bias := fun i => lp_bias theta i - lr * lp_bias grads i |}.

Definition gradient_descent (lr : R) (o : unit) (theta grads : Params) : unit * Params :=
  (o, {| shared := descend lr (shared theta) (shared grads);
         policy := descend lr (policy theta) (policy grads);
         value_function := descend lr (value_function theta) (value_function grads) |}).

Definition lr : R := 2 / 100.

Definition zero_params : Params := in_group Shared zero_linear.

Definition initial : @State nat unit unit :=
  {| env := 0%nat; rng := tt; params := zero_params; opt := tt;
     scores := []; scores_deque := []; trace := [] |}.

(** The small instance computes in exact arithmetic: nothing overflows, and
    the two tests of the floating-point arithmetic answer no. *)
Definition exact_logits (theta : Params) (x : list R) : bool := false.

Definition exact_update (o : unit) (theta : Params)
    (tr : @Trajectory nat unit) : bool := false.

(** The variables of the run before its first episode. *)
Definition start : @Numerics.Progress nat unit unit :=
  {| Numerics.r_env := 0%nat; Numerics.r_rng := tt; Numerics.r_params := zero_params;
     Numerics.r_nan := false; Numerics.r_opt := tt;
     Numerics.r_scores := []; Numerics.r_scores_deque := []; Numerics.r_trace := [] |}.
End Demo.

(** * The cells that watch a policy

    The two rendering loops of the notebook: the random policy before
    training and the trained agent after it.  Unlike the collection loop of
    the trainer they do not stop when an episode ends: they reset the
    environment and go on until the step count is used up. *)

Module Watch.
Export Numerics.

(** What the loops do to the environment, in order. *)
Inductive watch_event :=
| Reset
| Render
| Step (action : nat) (done : bool)
| Close.

Section Loops.
Context {EnvState Rng : Type}.
Variable env_reset : EnvState -> EnvState * list R.
Variable env_step : EnvState -> nat -> EnvState * (list R * R * bool).
(** [env.action_space.sample()] and the sampler behind [dist.sample()]. *)
Variable action_space_sample : Rng -> Rng * nat.
Variable multinomial : Rng -> list R -> Rng * nat.

(** The body of [for t in range(...)] in the random-policy cell; the state
    returned by the environment is not looked at. *)
Fixpoint random_loop (steps : nat) (env : EnvState) (rng : Rng)
    (evs : list watch_event) : EnvState * Rng * list watch_event :=
  match steps with
  | O => (env, rng, evs)
  | S steps =>
    let '(rng, action) := action_space_sample rng in
    let evs := evs ++ [Render] in
    let '(env, (state, reward, done)) := env_step env action in
    let evs := evs ++ [Step action done] in
    if done
    then let '(env, state) := env_reset env in
         random_loop steps env rng (evs ++ [Reset])
    else random_loop steps env rng evs
  end.

(** The cell "Watching a Random Policy In Action", on a new environment. *)
Definition watch_random_policy (env : EnvState) (rng : Rng)
    : EnvState * Rng * list watch_event :=
  let '(env, state) := env_reset env in
  let '(env, rng, evs) := random_loop 500 env rng [Reset] in
  (env, rng, evs ++ [Close]).

(** The body of [for t in range(...)] in the trained-agent cell;
    [nonfinite] tells of an observation whether the logits that [net]
    computes from it are not finite. *)
Fixpoint agent_loop (steps : nat) (nonfinite : list R -> bool) (net : Net)
    (env : EnvState) (rng : Rng) (state : list R) (evs : list watch_event)
    : outcome (EnvState * Rng * list watch_event) :=
  match steps with
  | O => Returned (env, rng, evs)
  | S steps =>
    match call_net (nonfinite state) net (map const state) with
    | Fails f => Failed f (env, rng, evs)
    | Fine (dist, value) =>
      let '(rng, action) := sample multinomial dist rng in
      let evs := evs ++ [Render] in
      let '(env, (state, reward, done)) := env_step env action in
      let evs := evs ++ [Step action done] in
      if done
      then let '(env, state) := env_reset env in
           agent_loop steps nonfinite net env rng state (evs ++ [Reset])
      else agent_loop steps nonfinite net env rng state evs
    end
  end.

(** The cell "Watching Our Agent in Action", on a new environment, for the
    [net] that training has left.  The environment is closed when the loop
    has returned. *)
Definition watch_agent (nonfinite : list R -> bool) (net : Net)
    (env : EnvState) (rng : Rng)
    : outcome (EnvState * Rng * list watch_event) :=
  let '(env, state) := env_reset env in
  match agent_loop 2000 nonfinite net env rng state [Reset] with
  | Returned (env, rng, evs) => Returned (env, rng, evs ++ [Close])
  | Failed f x => Failed f x
  end.
End Loops.
End Watch.

(** * Further vocabulary *)

Module Notions.
Import ReturnComputer Trainer Watch.
#[local] Open Scope R_scope.

(** The discounted sum [r_0 + gamma r_1 + gamma^2 r_2 + ...] of a reward
    sequence, the notebook's formula for the return. *)
Definition power_sum (gamma : R) (rewards : list R) : R :=
  pysum (imap (fun k r => gamma ^ k * r) rewards).

(** The rewards recorded by the environment steps of a piece of trace. *)
Fixpoint step_rewards (evs : list event) : list R :=
  match evs with
  | [] => []
  | EnvStep _ _ reward :: evs => reward :: step_rewards evs
  | _ :: evs => step_rewards evs
  end.

(** What a watching loop does in one iteration that takes [action] and is
    told [done]: render, step, and reset if the episode is over. *)
Definition iteration_events (it : nat * bool) : list watch_event :=
  [Render; Step it.1 it.2] ++ (if it.2 then [Reset] else []).

(** The trace of a watching cell whose iterations are [its]. *)
Definition watch_trace (its : list (nat * bool)) : list watch_event :=
  Reset :: concat (map iteration_events its) ++ [Close].
End Notions.

(** Two more environments for the small instance: one that never ends an
    episode and one that ends it at the first step. *)

Module Environments.
Import Trainer.
#[local] Open Scope R_scope.

Definition endless_step (e : nat) (action : nat) : nat * (list R * R * bool) :=
  (S e, (Demo.zeros, 1, false)).

Definition instant_step (e : nat) (action : nat) : nat * (list R * R * bool) :=
  (S e, (Demo.zeros, 1, true)).
End Environments.

(** * Properties *)

(** ** The return computer *)

Module ReturnFacts.
Import ReturnComputer Vocabulary.

Section Recurrence.
Context {A : Type} `{Arith A}.

Lemma loop_suffix (gamma : A) (suffix prefix : list A) :
  fold_right (fun step st => loop_body (prefix ++ suffix) gamma st step)
             (zero, []) (seq (length prefix) (length suffix))
  = (hd zero (returns_from suffix gamma), returns_from suffix gamma).
Proof.
  revert prefix. induction suffix as [|r suffix IH]; intros prefix; [done|].
  cbn [length seq fold_right].
  specialize (IH (prefix ++ [r])).
  rewrite <- app_assoc, length_app in IH. cbn [app length] in IH.
  replace (length prefix + 1) with (S (length prefix)) in IH by lia.
  rewrite IH. cbn [loop_body returns_from hd].
  by rewrite nth_middle.
Qed.

Lemma discounted_returns_eq (rewards : list A) (gamma : A) :
  discounted_returns rewards gamma = returns_from rewards gamma.
Proof.
  unfold discounted_returns.
  rewrite <- fold_left_rev_right, rev_involutive.
  pose proof (loop_suffix gamma rewards []) as Hloop.
  cbn [app length] in Hloop. by rewrite Hloop.
Qed.

Lemma returns_from_length (rewards : list A) (gamma : A) :
  length (returns_from rewards gamma) = length rewards.
Proof. induction rewards; cbn; congruence. Qed.

Lemma returns_from_step (rewards : list A) (gamma : A) (t : nat) :
  S t < length rewards ->
  nth t (returns_from rewards gamma) zero
  = add (nth t rewards zero) (mul gamma (nth (S t) (returns_from rewards gamma) zero)).
Proof.
  revert t. induction rewards as [|r rewards IH]; intros t Ht; cbn in Ht; [lia|].
  destruct t as [|t].
  - cbn. destruct rewards as [|r' rewards]; cbn in *; [lia|done].
  - cbn [returns_from nth]. apply IH. lia.
Qed.

Lemma returns_from_last (rewards : list A) (gamma : A) (T : nat) :
  length rewards = S T ->
  nth T (returns_from rewards gamma) zero
  = add (nth T rewards zero) (mul gamma zero).
Proof.
  revert T. induction rewards as [|r rewards IH]; intros T HT; [done|].
  destruct rewards as [|r' rewards].
  - cbn in HT. by replace T with 0 by lia.
  - destruct T as [|T]; cbn in HT; [lia|].
    cbn [returns_from nth]. apply (IH T). cbn. lia.
Qed.
End Recurrence.

(** In binary64 a number that is not NaN stays the same number (up to the
    sign of zero) when the product of a finite [gamma] and 0 is added. *)
Lemma SFeqb_add_zero (s : bool) (x : SpecFloat.spec_float) :
  SpecFloat.SFeqb x x = true ->
  SpecFloat.SFeqb (SpecFloat.SFadd prec emax x (SpecFloat.S754_zero s)) x = true.
Proof.
  destruct x as [sx|sx| |sx m e]; cbn; try done.
  by destruct sx, s.
Qed.

Lemma add_gamma_zero (r gamma : float) :
  is_nan r = false -> is_nan gamma = false -> is_infinity gamma = false ->
  (r + gamma * 0 =? r)%float = true.
Proof.
  unfold is_nan, is_infinity.
  rewrite !FloatAxioms.eqb_spec, abs_spec, FloatAxioms.add_spec, FloatAxioms.mul_spec.
  change (Prim2SF 0) with (SpecFloat.S754_zero false).
  change (Prim2SF infinity) with (SpecFloat.S754_infinity false).
  intros Hr Hnan Hinf. apply negb_false_iff in Hr.
  destruct (Prim2SF gamma) as [s|s| |s m e]; try discriminate;
    apply SFeqb_add_zero, Hr.
Qed.

(** Claim C2.  The returns at loop exit, before normalization, are as many as
    the rewards and satisfy the backward recurrence
    [G_t = r_t + gamma * G_{t+1}]; the last one is [r_T + gamma * 0], which is
    [r_T] in exact arithmetic.  The recurrence holds operation for operation
    in binary64 as well, the last return comparing equal to [r_T] for any
    reward that is a number and any finite [gamma]; there rewards [1, 1, 1]
    with gamma 1.0 give [3, 2, 1] and rewards [0, 0, 10] with gamma 0.5 give
    [2.5, 5, 10]. *)
Theorem discounted_returns_recurrence :
  (forall (rewards : list R) (gamma : R),
     let G := discounted_returns rewards gamma in
     length G = length rewards /\
     (forall t, S t < length rewards ->
        nth t G 0%R = (nth t rewards 0 + gamma * nth (S t) G 0)%R) /\
     (forall T, length rewards = S T -> nth T G 0%R = nth T rewards 0%R)) /\
  (forall (rewards : list float) (gamma : float),
     let G := discounted_returns rewards gamma in
     length G = length rewards /\
     (forall t, S t < length rewards ->
        nth t G 0%float = (nth t rewards 0 + gamma * nth (S t) G 0)%float) /\
     (forall T, length rewards = S T ->
        nth T G 0%float = (nth T rewards 0 + gamma * 0)%float /\
        (is_nan (nth T rewards 0%float) = false ->
         is_nan gamma = false -> is_infinity gamma = false ->
         (nth T G 0 =? nth T rewards 0)%float = true))) /\
  discounted_returns [1; 1; 1]%float 1%float = [3; 2; 1]%float /\
  discounted_returns [0; 0; 10]%float 0.5%float = [2.5; 5; 10]%float.
Proof.
  split; [|split; [|split; vm_compute; reflexivity]].
  - intros rewards gamma G. subst G. rewrite discounted_returns_eq.
    split; [apply returns_from_length|split].
    + intros t Ht. exact (returns_from_step rewards gamma t Ht).
    + intros T HT.
      pose proof (returns_from_last rewards gamma T HT) as Hlast.
      cbn in Hlast. rewrite Hlast. lra.
  - intros rewards gamma G. subst G. rewrite discounted_returns_eq.
    split; [apply returns_from_length|split].
    + intros t Ht. exact (returns_from_step rewards gamma t Ht).
    + intros T HT.
      pose proof (returns_from_last rewards gamma T HT) as Hlast.
      cbn [add mul zero float_arith] in Hlast.
      split; [exact Hlast|]. intros Hr Hnan Hinf.
      rewrite Hlast. by apply add_gamma_zero.
Qed.
End ReturnFacts.

(** *** Exact arithmetic: sums, mean and standard deviation over [R] *)

Module RealStats.
Import ReturnComputer Vocabulary.
Open Scope R_scope.

(** Read the interface's operations at [R] as the operations of [R]. *)
Ltac real_ops :=
  change (@add R real_arith) with Rplus in *;
  change (@sub R real_arith) with Rminus in *;
  change (@mul R real_arith) with Rmult in *;
  change (@div R real_arith) with Rdiv in *;
  change (@zero R real_arith) with 0 in *;
  change (@of_nat R real_arith) with INR in *.

Lemma fold_plus_acc (xs : list R) (a : R) :
  fold_left Rplus xs a = a + fold_left Rplus xs 0.
Proof.
  revert a. induction xs as [|x xs IH]; intros a; cbn; [lra|].
  rewrite (IH (a + x)), (IH (0 + x)). lra.
Qed.

Lemma sqrt_zero_over (x : R) : R_sqrt.sqrt (0 / x) = 0.
Proof. unfold Rdiv. rewrite Rmult_0_l. apply sqrt_0. Qed.

Lemma pysum_nil : pysum (@nil R) = 0.
Proof. reflexivity. Qed.

Lemma pysum_cons (x : R) (xs : list R) : pysum (x :: xs) = x + pysum xs.
Proof. unfold pysum. cbn. rewrite fold_plus_acc. lra. Qed.

Lemma pysum_app (xs ys : list R) : pysum (xs ++ ys) = pysum xs + pysum ys.
Proof.
  induction xs as [|x xs IH]; cbn [app]; rewrite ?pysum_cons, ?pysum_nil; lra.
Qed.

Lemma pysum_shift (m : R) (xs : list R) :
  pysum (map (fun x => sub x m) xs) = pysum xs - INR (length xs) * m.
Proof.
  induction xs as [|x xs IH]; [cbn; lra|].
  cbn [map]. rewrite !pysum_cons, IH, length_cons, S_INR. cbn. lra.
Qed.

Lemma pysum_scale (s : R) (xs : list R) :
  pysum (map (fun x => div x s) xs) = pysum xs / s.
Proof.
  induction xs as [|x xs IH]; [cbn; lra|].
  cbn [map]. rewrite !pysum_cons, IH. cbn. lra.
Qed.

Lemma sumsq_cons (m x : R) (xs : list R) :
  sumsq m (x :: xs) = (x - m) * (x - m) + sumsq m xs.
Proof. unfold sumsq. cbn [map]. by rewrite pysum_cons. Qed.

Lemma sumsq_nonneg (m : R) (xs : list R) : 0 <= sumsq m xs.
Proof.
  induction xs as [|x xs IH]; [cbn; lra|]. rewrite sumsq_cons.
  pose proof (Rle_0_sqr (x - m)) as Hsq. unfold Rsqr in Hsq. lra.
Qed.

Lemma sumsq_zero (m : R) (xs : list R) :
  sumsq m xs = 0 -> forall x, In x xs -> x = m.
Proof.
  induction xs as [|x xs IH]; intros Hs y Hy; [destruct Hy|].
  rewrite sumsq_cons in Hs. pose proof (sumsq_nonneg m xs).
  pose proof (Rle_0_sqr (x - m)) as Hsq. unfold Rsqr in Hsq.
  destruct Hy as [<-|Hy]; [|apply IH; [lra|done]].
  assert ((x - m) * (x - m) = 0) as H0 by lra.
  apply Rmult_integral in H0. lra.
Qed.

Lemma sumsq_scale (s : R) (xs : list R) :
  s <> 0 -> sumsq 0 (map (fun x => div x s) xs) = sumsq 0 xs / (s * s).
Proof.
  intros Hs. induction xs as [|x xs IH]; [cbn; lra|].
  cbn [map]. rewrite !sumsq_cons, IH. cbn. by field.
Qed.

Lemma length_INR_pos {X} (xs : list X) : xs <> [] -> 0 < INR (length xs).
Proof. destruct xs; [done|]. intros _. apply lt_0_INR. cbn. lia. Qed.

Lemma std_eq (xs : list R) :
  std xs = R_sqrt.sqrt (sumsq (mean xs) xs / INR (length xs)).
Proof. reflexivity. Qed.

Lemma centre_sum (xs : list R) : xs <> [] -> pysum (centre xs) = 0.
Proof.
  intros Hxs. unfold centre. rewrite pysum_shift. unfold mean. cbn.
  pose proof (length_INR_pos xs Hxs). by field; lra.
Qed.

Lemma centre_mean (xs : list R) : mean (centre xs) = 0.
Proof.
  destruct (decide (xs = [])) as [->|Hxs]; [cbn; lra|].
  unfold mean at 1. rewrite centre_sum by done. cbn. lra.
Qed.

Lemma variance_nonneg (m : R) (xs : list R) : 0 <= sumsq m xs / INR (length xs).
Proof.
  destruct (decide (xs = [])) as [->|Hxs]; [cbn; lra|].
  pose proof (sumsq_nonneg m xs). pose proof (length_INR_pos xs Hxs) as Hn.
  apply Rinv_0_lt_compat in Hn. unfold Rdiv. by apply Rmult_le_pos; [|lra].
Qed.

(** The standard deviation vanishes exactly on constant vectors. *)
Lemma std_zero_all_equal (xs : list R) : std xs = 0 <-> all_equal xs.
Proof.
  rewrite std_eq. split.
  - intros Hs x y Hx Hy.
    apply sqrt_eq_0 in Hs; [|apply variance_nonneg].
    assert (xs <> []) as Hxs by (intros ->; destruct Hx).
    pose proof (length_INR_pos xs Hxs).
    assert (sumsq (mean xs) xs = 0) as H0.
    { apply (Rmult_eq_reg_r (/ INR (length xs))); [|apply Rinv_neq_0_compat; lra].
      unfold Rdiv in Hs. lra. }
    by rewrite (sumsq_zero _ _ H0 x), (sumsq_zero _ _ H0 y).
  - intros Heq.
    destruct xs as [|a xs]; [apply sqrt_zero_over|].
    assert (forall ys, (forall y, In y ys -> y = a) ->
              pysum ys = INR (length ys) * a) as Hsum.
    { induction ys as [|y ys IH]; intros Hys; [cbn; lra|].
      rewrite pysum_cons, IH, length_cons, S_INR, (Hys y); [lra|by left|].
      intros z Hz. apply Hys. by right. }
    assert (forall y, In y (a :: xs) -> y = a) as Ha
      by (intros y Hy; apply Heq; [done|by left]).
    assert (mean (a :: xs) = a) as ->.
    { unfold mean. rewrite (Hsum _ Ha). cbn [div real_arith of_nat].
      pose proof (length_INR_pos (a :: xs) ltac:(done)). by field; lra. }
    assert (forall ys, (forall y, In y ys -> y = a) -> sumsq a ys = 0) as Hsq.
    { induction ys as [|y ys IH]; intros Hys; [cbn; lra|].
      rewrite sumsq_cons, IH, (Hys y); [lra|by left|].
      intros z Hz. apply Hys. by right. }
    rewrite (Hsq _ Ha). apply sqrt_zero_over.
Qed.

Lemma all_equal_centre (xs : list R) : all_equal (centre xs) <-> all_equal xs.
Proof.
  unfold centre, all_equal. setoid_rewrite in_map_iff. split.
  - intros Hc x y Hx Hy.
    specialize (Hc (sub x (mean xs)) (sub y (mean xs))). cbn in Hc.
    assert (x - mean xs = y - mean xs) by (apply Hc; eauto). lra.
  - intros Heq x y (x' & <- & Hx) (y' & <- & Hy). by rewrite (Heq x' y').
Qed.

(** Centring and scaling by a nonzero standard deviation gives mean 0 and
    standard deviation 1. *)
Lemma scale_centre_stats (xs : list R) :
  std (centre xs) <> 0 ->
  mean (scale (centre xs)) = 0 /\ std (scale (centre xs)) = 1.
Proof.
  intros Hs.
  assert (xs <> []) as Hxs.
  { intros ->. apply Hs. apply sqrt_zero_over. }
  pose proof (length_INR_pos xs Hxs) as Hn.
  pose proof (centre_mean xs) as Hc0.
  pose proof (centre_sum xs Hxs) as Hsum.
  assert (length (centre xs) = length xs) as Hlen by apply length_map.
  remember (centre xs) as c eqn:Hc.
  remember (std c) as s eqn:Hsdef.
  assert (s * s = sumsq 0 c / INR (length xs)) as Hss.
  { rewrite Hsdef, std_eq, Hc0, Hlen. apply sqrt_sqrt.
    rewrite <- Hlen. apply variance_nonneg. }
  assert (scale c = map (fun x => div x s) c) as Hscale
    by (unfold scale; by rewrite <- Hsdef).
  assert (mean (scale c) = 0) as Hmean.
  { unfold mean. rewrite Hscale, pysum_scale, Hsum, length_map, Hlen.
    real_ops. by field; lra. }
  split; [done|].
  rewrite std_eq, Hmean, Hscale, sumsq_scale, length_map, Hlen by done.
  replace (sumsq 0 c / (s * s) / INR (length xs)) with 1; [apply sqrt_1|].
  assert (sumsq 0 c = s * s * INR (length xs)) as -> by (rewrite Hss; field; lra).
  field. lra.
Qed.
End RealStats.

(** *** Binary64 evaluation *)

Module FloatRuns.
Import ReturnComputer Vocabulary.

Lemma leb_nan (tol : float) : PrimFloat.leb nan tol = false.
Proof.
  rewrite FloatAxioms.leb_spec.
  change (Prim2SF nan) with SpecFloat.S754_nan.
  reflexivity.
Qed.

(** Claim C3, as stated, fails in binary64, in two ways.  The two rewards
    [0, 0] have equal returns, the standard deviation is 0, and every entry
    of the output is [0 / 0]: neither its mean nor its standard deviation
    lies within any tolerance of 0 and 1.  And returns that are not all
    equal do not save the claim as long as it is about binary64.  The
    rewards [0.010000000000000231, 1] at the notebook's [gamma] have the
    returns [1 + 2^-52, 1], two neighbouring numbers; their mean rounds to
    1, the output is [2, 0], and its mean is 1, not 0 within 1/2.  The
    rewards [0, 2^-700] have returns one hundredth apart in proportion, but
    the squares of their deviations underflow: the standard deviation is 0,
    the output is [-inf, inf], and its mean is NaN. *)
Lemma normalization_constant_returns_nan :
  (let rewards := [0; 0]%float in
   let out := compute_returns rewards gamma64 in
   2 <= length rewards /\
   out = [nan; nan]%float /\
   forall tol, close tol (mean out) 0 = false /\ close tol (std out) 1 = false) /\
  (let rewards := [0x1.47ae147ae15p-7; 1]%float in
   let out := compute_returns rewards gamma64 in
   2 <= length rewards /\
   discounted_returns rewards gamma64 = [0x1.0000000000001p0; 1]%float /\
   out = [2; 0]%float /\
   mean out = 1%float /\
   close 0.5 (mean out) 0 = false) /\
  (let rewards := [0; 0x1p-700]%float in
   let out := compute_returns rewards gamma64 in
   2 <= length rewards /\
   discounted_returns rewards gamma64
   = [0x1.fae147ae147aep-701; 0x1p-700]%float /\
   normalization_divisor rewards gamma64 = 0%float /\
   out = [neg_infinity; infinity]%float /\
   mean out = nan /\
   forall tol, close tol (mean out) 0 = false).
Proof.
  split.
  - cbv zeta. split; [cbn; lia|]. split; [vm_compute; reflexivity|].
    intros tol. unfold close.
    replace (compute_returns [0; 0]%float gamma64) with [nan; nan]%float
      by (vm_compute; reflexivity).
    replace (abs (mean [nan; nan]%float - 0))%float with nan
      by (vm_compute; reflexivity).
    replace (abs (std [nan; nan]%float - 1))%float with nan
      by (vm_compute; reflexivity).
    split; apply leb_nan.
  - split.
    + cbv zeta. split; [cbn; lia|]. repeat split; vm_compute; reflexivity.
    + cbv zeta. split; [cbn; lia|].
      split; [vm_compute; reflexivity|]. split; [vm_compute; reflexivity|].
      split; [vm_compute; reflexivity|]. split; [vm_compute; reflexivity|].
      intros tol. unfold close.
      replace (abs (mean (compute_returns [0; 0x1p-700]%float gamma64) - 0))%float
        with nan by (vm_compute; reflexivity).
      apply leb_nan.
Qed.

(** Claim C4, as stated, fails: for the single reward [1.5] the centred
    return is 0, the divisor [returns.std()] is 0, and the result of the
    division is NaN. *)
Lemma single_reward_nan :
  let rewards := [1.5]%float in
  centre (discounted_returns rewards gamma64) = [0]%float /\
  normalization_divisor rewards gamma64 = 0%float /\
  compute_returns rewards gamma64 = [nan]%float.
Proof. cbv zeta. repeat split; vm_compute; reflexivity. Qed.
End FloatRuns.

(** *** The normalization in exact arithmetic *)

Module Normalization.
Import ReturnComputer Vocabulary RealStats.
Open Scope R_scope.

Lemma short_all_equal (xs : list R) : (length xs < 2)%nat -> all_equal xs.
Proof.
  destruct xs as [|a [|b xs]]; cbn; intros Hlen x y Hx Hy; [done| |lia].
  destruct Hx as [<-|[]]. by destruct Hy as [<-|[]].
Qed.

(** Claim C3, amended.  For every reward sequence whose discounted returns
    are not all equal (there are then at least two rewards), the output of
    [compute_returns] has, in exact arithmetic, mean 0 and standard
    deviation 1.  Both changes are needed: the first for the rewards [0, 0],
    the second for returns that are neighbouring binary64 numbers, or whose
    deviations have squares that underflow. *)
Theorem compute_returns_normalized (rewards : list R) (gamma : R) :
  ~ all_equal (discounted_returns rewards gamma) ->
  (2 <= length rewards)%nat /\
  mean (compute_returns rewards gamma) = 0 /\
  std (compute_returns rewards gamma) = 1.
Proof.
  intros Hne. split.
  - destruct (decide (length rewards < 2)%nat) as [Hlt|]; [|lia].
    exfalso. apply Hne, short_all_equal.
    by rewrite ReturnFacts.discounted_returns_eq, ReturnFacts.returns_from_length.
  - apply scale_centre_stats. intros Hs. apply Hne.
    by apply all_equal_centre, std_zero_all_equal.
Qed.

Lemma compute_returns_normalized_witness :
  ~ all_equal (discounted_returns [1; 1; 1] 1) /\
  (2 <= length [1; 1; 1])%nat /\
  mean (compute_returns [1; 1; 1] 1) = 0 /\
  std (compute_returns [1; 1; 1] 1) = 1.
Proof.
  assert (~ all_equal (discounted_returns [1; 1; 1] 1)) as Hne.
  { intros Heq.
    specialize (Heq (1 + 1 * (1 + 1 * (1 + 1 * 0))) (1 + 1 * (1 + 1 * 0))).
    cbn in Heq. lra. }
  split; [exact Hne|].
  exact (compute_returns_normalized [1; 1; 1] 1 Hne).
Defined.

(** Claim C4, amended.  [compute_returns] has no guard for a single reward:
    the centred return is 0 and the standard deviation it then divides by
    is 0, whatever the reward and the discount factor. *)
Theorem single_reward_zero_divisor (r gamma : R) :
  centre (discounted_returns [r] gamma) = [0] /\
  normalization_divisor [r] gamma = 0.
Proof.
  assert (centre (discounted_returns [r] gamma) = [0]) as Hc.
  { cbn. f_equal. field. }
  split; [done|].
  unfold normalization_divisor. rewrite Hc.
  apply std_zero_all_equal. by apply short_all_equal; cbn; lia.
Qed.
End Normalization.

(** ** [compute_returns] on the store: what it reads and what it writes *)

Module HeapFacts.
Import Heap.

Section Frame.
Context {A : Type} `{Arith A}.
Implicit Types (h : gmap loc (list A)) (l : loc) (xs : list A).

Lemma fresh_unused h : h !! fresh (dom h) = None.
Proof. apply not_elem_of_dom, is_fresh. Qed.

Lemma bind_run {X Y} (m : M X) (f : X -> M Y) h x h' :
  m h = Ok (x, h') -> (m ≫= f) h = f x h'.
Proof. unfold mbind, M_bind. by intros ->. Qed.

Lemma read_run h l xs : h !! l = Some xs -> read l h = Ok (xs, h).
Proof. unfold read. by intros ->. Qed.

Lemma getitem_run h l xs (i : nat) :
  h !! l = Some xs -> i < length xs -> getitem l i h = Ok (nth i xs zero, h).
Proof.
  intros Hl Hi. unfold getitem. rewrite (bind_run _ _ _ _ _ (read_run _ _ _ Hl)).
  destruct (lookup_lt_is_Some_2 xs i Hi) as [x Hx]. rewrite Hx.
  by rewrite (nth_lookup_Some _ _ zero _ Hx).
Qed.

Lemma insert0_run h l xs (x : A) :
  h !! l = Some xs -> insert0 l x h = Ok (tt, <[l := x :: xs]> h).
Proof.
  intros Hl. unfold insert0. by rewrite (bind_run _ _ _ _ _ (read_run _ _ _ Hl)).
Qed.

(** The loop reads [rewards] and writes only to [returns]. *)
Lemma loop_run (rewards returns : loc) (rs : list A) (gamma : A) (steps : list nat) :
  rewards <> returns ->
  Forall (fun step => step < length rs) steps ->
  forall h (acc : list A) (R : A),
    h !! rewards = Some rs ->
    h !! returns = Some acc ->
    for_loop steps (fun step R =>
        r ← getitem rewards step;
        let R := add r (mul gamma R) in
        _ ← insert0 returns R;
        mret R) R h
    = let st := fold_left (ReturnComputer.loop_body rs gamma) steps (R, acc) in
      Ok (st.1, <[returns := st.2]> h).
Proof.
  intros Hne Hsteps. induction Hsteps as [|step steps Hstep _ IH]; intros h acc R Hrs Hacc.
  - cbn. by rewrite insert_id.
  - cbn [for_loop fold_left ReturnComputer.loop_body].
    set (R' := add (nth step rs zero) (mul gamma R)).
    erewrite bind_run; last first.
    { erewrite bind_run by (by apply getitem_run).
      erewrite bind_run by (by apply insert0_run). reflexivity. }
    rewrite (IH _ (R' :: acc) R').
    + cbv zeta. by rewrite insert_insert_eq.
    + by rewrite lookup_insert_ne.
    + by rewrite lookup_insert_eq.
Qed.

(** The run of [compute_returns], statement by statement. *)
Lemma compute_returns_run h (rewards : loc) (rs : list A) (gamma : A) :
  h !! rewards = Some rs ->
  let G := ReturnComputer.discounted_returns rs gamma in
  let list_obj := fresh (dom h) in
  let h1 := <[list_obj := G]> h in
  let array_obj := fresh (dom h1) in
  compute_returns rewards gamma h
  = Ok (array_obj, <[array_obj := ReturnComputer.compute_returns rs gamma]> h1).
Proof.
  intros Hrs G list_obj h1 array_obj.
  assert (rewards <> list_obj) as Hne.
  { intros ->. pose proof (fresh_unused h). unfold list_obj in Hrs. congruence. }
  unfold compute_returns.
  erewrite bind_run by reflexivity. fold list_obj.
  assert (<[list_obj := []]> h !! rewards = Some rs) as Hrs1
    by (by rewrite lookup_insert_ne).
  erewrite bind_run; last first.
  { unfold len. erewrite bind_run by (by apply read_run). reflexivity. }
  erewrite bind_run; last first.
  { rewrite (loop_run rewards list_obj rs gamma _ Hne) with (acc := []);
      [|apply Forall_forall; intros step Hstep;
        rewrite list_elem_of_In, <- in_rev, in_seq in Hstep; lia
      |done|by rewrite lookup_insert_eq].
    cbv zeta. fold (ReturnComputer.discounted_returns rs gamma). fold G.
    rewrite insert_insert_eq. reflexivity. }
  fold h1.
  assert (h1 !! list_obj = Some G) as Hlist
    by (unfold h1; by rewrite lookup_insert_eq).
  erewrite bind_run; last first.
  { unfold np_array. erewrite bind_run by (by apply read_run). reflexivity. }
  fold array_obj.
  erewrite bind_run; last first.
  { unfold arr_mean. erewrite bind_run by apply read_run, lookup_insert_eq.
    reflexivity. }
  erewrite bind_run; last first.
  { unfold isub. erewrite bind_run by apply read_run, lookup_insert_eq.
    reflexivity. }
  rewrite insert_insert_eq.
  erewrite bind_run; last first.
  { unfold arr_std. erewrite bind_run by apply read_run, lookup_insert_eq.
    reflexivity. }
  erewrite bind_run; last first.
  { unfold idiv. erewrite bind_run by apply read_run, lookup_insert_eq.
    reflexivity. }
  by rewrite insert_insert_eq.
Qed.
End Frame.

(** Claim C9.  [compute_returns] does not modify its input.  From any store
    in which [rewards] refers to a sequence, the call returns a reference to
    an array that did not exist before; afterwards [rewards] and every other
    object of the old store hold what they held, and the new array holds the
    normalized returns: a later [sum(rewards)] is the sum of the original
    values. *)
Theorem compute_returns_preserves_rewards {A : Type} `{Arith A}
    (h : gmap loc (list A)) (rewards : loc) (rs : list A) (gamma : A) :
  h !! rewards = Some rs ->
  exists returns h',
    compute_returns rewards gamma h = Ok (returns, h') /\
    h !! returns = None /\
    h' !! returns = Some (ReturnComputer.compute_returns rs gamma) /\
    h' !! rewards = Some rs /\
    (forall l xs, h !! l = Some xs -> h' !! l = Some xs) /\
    (xs ← h' !! rewards; Some (ReturnComputer.pysum xs)) = Some (ReturnComputer.pysum rs).
Proof.
  intros Hrs. pose proof (compute_returns_run h rewards rs gamma Hrs) as Hrun.
  cbv zeta in Hrun.
  set (list_obj := fresh (dom h)) in *.
  set (h1 := <[list_obj := _]> h) in *.
  set (array_obj := fresh (dom h1)) in *.
  assert (forall l xs, h !! l = Some xs ->
            <[array_obj := ReturnComputer.compute_returns rs gamma]> h1 !! l = Some xs)
    as Hframe.
  { intros l xs Hl.
    assert (h1 !! l = Some xs) as Hl1.
    { unfold h1. rewrite lookup_insert_ne; [done|].
      intros <-. pose proof (fresh_unused h). unfold list_obj in Hl. congruence. }
    rewrite lookup_insert_ne; [done|].
    intros <-. pose proof (fresh_unused h1). unfold array_obj in Hl1. congruence. }
  eexists _, _. split; [exact Hrun|].
  split; [|split; [by rewrite lookup_insert_eq|split; [by apply Hframe|split; [done|]]]].
  - destruct (h !! array_obj) as [xs|] eqn:Hl; [exfalso|done].
    pose proof (fresh_unused h1) as Hfresh. fold array_obj in Hfresh.
    unfold h1 in Hfresh. rewrite lookup_insert in Hfresh.
    case_decide; congruence.
  - by rewrite (Hframe _ _ Hrs).
Qed.
End HeapFacts.

(** ** The network *)

Module NetFacts.
Import Policy Vocabulary.
Open Scope R_scope.

Lemma Linear_forward_ok (l : Linear) (x : list Tensor) :
  length x = in_features l ->
  Linear_forward l x
  = Ok (map (fun i => t_add (dot (weight l i) x) (bias l i)) (seq 0 (out_features l))).
Proof. intros Hx. unfold Linear_forward. by rewrite Hx, Nat.eqb_refl. Qed.

Lemma Linear_forward_mismatch (l : Linear) (x : list Tensor) :
  length x <> in_features l -> Linear_forward l x = Err ShapeMismatch.
Proof.
  intros Hx. unfold Linear_forward.
  by destruct (Nat.eqb_spec (length x) (in_features l)).
Qed.

Lemma hidden_length (net : Net) (x : list Tensor) :
  length (hidden net x) = out_features (fc_shared net).
Proof. unfold hidden. by rewrite !length_map, length_seq. Qed.

(** The forward pass of a network built by [Net_init], on an input of the
    right size: it goes through exactly when the hidden width is the 128
    that the value head expects. *)
Lemma forward_Net_init (s_size h_size a_size : nat) (theta : Params) (x : list Tensor) :
  length x = s_size ->
  let net := Net_init s_size h_size a_size theta in
  forward net x
  = if decide (h_size = 128%nat)
    then Ok (Categorical_init [value_of net x], [value_of net x])
    else Err ShapeMismatch.
Proof.
  intros Hx net. unfold forward.
  rewrite (Linear_forward_ok (fc_shared net) x) by done. cbn [mbind result_bind].
  fold (hidden net x).
  rewrite (Linear_forward_ok (fc_policy net)) by apply hidden_length.
  cbn [mbind result_bind].
  case_decide as Hh.
  - rewrite (Linear_forward_ok (fc_value_function net))
      by (rewrite hidden_length; by subst h_size).
    reflexivity.
  - rewrite (Linear_forward_mismatch (fc_value_function net)); [done|].
    by rewrite hidden_length.
Qed.

(** A distribution over a single category: its one normalized logit is 0,
    as a value and as a function of the parameters. *)
Lemma forward_wrong_size (s_size h_size a_size : nat) (theta : Params) (x : list Tensor) :
  length x <> s_size ->
  forward (Net_init s_size h_size a_size theta) x = Err ShapeMismatch.
Proof.
  intros Hx. unfold forward.
  by rewrite (Linear_forward_mismatch (fc_shared _) x).
Qed.

Lemma singleton_logit (v : Tensor) :
  exists lp, logits (Categorical_init [v]) = [lp] /\
    data lp = 0 /\ forall d, jvp lp d = 0.
Proof.
  eexists. split; [reflexivity|].
  pose proof (exp_pos (data v)) as Hexp.
  split; [|intros d]; cbn.
  - rewrite Rplus_0_l, ln_exp. lra.
  - field. lra.
Qed.
End NetFacts.

(** ** Tensor algebra *)

Module TensorFacts.
Import Policy ReturnComputer Vocabulary RealStats.
Open Scope R_scope.

Lemma t_sum_acc (xs : list Tensor) (a : Tensor) :
  data (fold_left t_add xs a) = data a + pysum (map data xs) /\
  forall d, jvp (fold_left t_add xs a) d = jvp a d + pysum (map (fun t => jvp t d) xs).
Proof.
  revert a. induction xs as [|x xs IH]; intros a.
  - cbn. split; [|intros d]; lra.
  - cbn [fold_left map]. destruct (IH (t_add a x)) as [Hd Hj].
    rewrite Hd. split; [|intros d; rewrite Hj]; rewrite pysum_cons; cbn; lra.
Qed.

Lemma t_sum_data (xs : list Tensor) : data (t_sum xs) = pysum (map data xs).
Proof. unfold t_sum. rewrite (proj1 (t_sum_acc xs _)). cbn. lra. Qed.

Lemma t_sum_jvp (xs : list Tensor) (d : Params) :
  jvp (t_sum xs) d = pysum (map (fun t => jvp t d) xs).
Proof. unfold t_sum. rewrite (proj2 (t_sum_acc xs _)). cbn. lra. Qed.

Lemma pysum_zero (xs : list R) : Forall (fun x => x = 0) xs -> pysum xs = 0.
Proof.
  induction 1 as [|x xs -> _ IH]; [done|]. rewrite pysum_cons, IH. lra.
Qed.

Lemma flat_const d r : flat d (const r).
Proof. reflexivity. Qed.

Lemma flat_add d x y : flat d x -> flat d y -> flat d (t_add x y).
Proof. unfold flat. cbn. intros -> ->. lra. Qed.

Lemma flat_mul d x y : flat d x -> flat d y -> flat d (t_mul x y).
Proof. unfold flat. cbn. intros -> ->. lra. Qed.

Lemma flat_relu d x : flat d x -> flat d (relu x).
Proof. unfold relu. by destruct (Rlt_dec 0 (data x)). Qed.

Lemma flat_sum d xs : Forall (flat d) xs -> flat d (t_sum xs).
Proof.
  intros Hxs. unfold flat. rewrite t_sum_jvp. apply pysum_zero.
  by apply Forall_map.
Qed.

Lemma flat_dot d (row : nat -> Tensor) (x : list Tensor) :
  (forall j, flat d (row j)) -> Forall (flat d) x -> flat d (dot row x).
Proof.
  intros Hrow Hx. apply flat_sum.
  assert (forall f : nat -> Tensor -> Tensor,
            (forall j t, flat d t -> flat d (f j t)) ->
            Forall (flat d) (imap f x)) as Himap.
  { induction Hx as [|t x Ht _ IH]; intros f Hf; cbn; constructor.
    - by apply Hf.
    - apply IH. intros j t' Ht'. by apply Hf. }
  apply Himap. intros j t Ht. by apply flat_mul.
Qed.

Lemma broadcast_same (f : Tensor -> Tensor -> Tensor) (xs ys : list Tensor) :
  length xs = length ys -> broadcast f xs ys = Ok (zip_with f xs ys).
Proof. intros Hlen. unfold broadcast. by rewrite Hlen, Nat.eqb_refl. Qed.

Lemma Rabs_square (x : R) : Rabs x * Rabs x = x * x.
Proof. unfold Rabs. destruct (Rcase_abs x); lra. Qed.

Lemma Rabs_sign (x : R) : Rabs x * sign x = x.
Proof.
  unfold Rabs, sign.
  destruct (Rcase_abs x), (Rlt_dec 0 x), (Rlt_dec x 0); lra.
Qed.
End TensorFacts.

(** ** The loss of one episode *)

Module LossFacts.
Import Trainer ReturnComputer Vocabulary RealStats TensorFacts.
Open Scope R_scope.

Lemma pysum_mult_l (c : R) (xs : list R) :
  pysum (map (Rmult c) xs) = c * pysum xs.
Proof.
  induction xs as [|x xs IH]; [cbn; lra|].
  cbn [map]. rewrite !pysum_cons, IH. lra.
Qed.

Lemma policy_terms (returns : list R) (values log_probs : list Tensor) :
  length values = length returns -> length log_probs = length returns ->
  let weighted :=
    zip_with t_mul log_probs (map detach (zip_with t_sub (map const returns) values)) in
  map data weighted = zip_with Rmult (map data log_probs) (advantages returns values) /\
  forall d, map (fun t => jvp t d) weighted
            = zip_with Rmult (map (fun t => jvp t d) log_probs) (advantages returns values).
Proof.
  revert values log_probs.
  induction returns as [|G returns IH]; intros [|v values] [|lp log_probs]; cbn;
    try done.
  intros [= Hv] [= Hlp]. destruct (IH values log_probs Hv Hlp) as [IHd IHj].
  split; [|intros d; specialize (IHj d)].
  - unfold advantages in *. cbn in *. by rewrite IHd.
  - unfold advantages in *. cbn in *. rewrite IHj. f_equal. lra.
Qed.

Lemma value_terms (returns : list R) (values : list Tensor) :
  length values = length returns ->
  let squares :=
    map (fun x => t_pow2 (t_abs x)) (zip_with t_sub (map const returns) values) in
  map data squares = map (fun x => x * x) (advantages returns values) /\
  forall d, map (fun t => jvp t d) squares
            = map (Rmult (-2))
                  (zip_with Rmult (advantages returns values)
                                  (map (fun t => jvp t d) values)).
Proof.
  revert values.
  induction returns as [|G returns IH]; intros [|v values]; cbn; try done.
  intros [= Hv]. destruct (IH values Hv) as [IHd IHj].
  split; [|intros d; specialize (IHj d)].
  - unfold advantages in *. cbn in *. by rewrite IHd, Rabs_square.
  - unfold advantages in *. cbn in *. rewrite IHj. f_equal.
    pose proof (Rabs_sign (G - data v)) as Habs.
    replace (2 * Rabs (G - data v) * (sign (G - data v) * (0 - jvp v d)))
      with (-2 * ((Rabs (G - data v) * sign (G - data v)) * jvp v d)) by ring.
    by rewrite Habs.
Qed.

(** The loss assembled from equally long [returns], [values] and
    [log_probs]: its value and its derivative along any perturbation. *)
Lemma assemble_loss_ok (returns : list R) (values log_probs : list Tensor) :
  length values = length returns -> length log_probs = length returns ->
  exists l, assemble_loss (map const returns) values log_probs = Ok l /\
    data (policy_loss l)
      = pysum (zip_with Rmult (map data log_probs) (advantages returns values)) /\
    (forall d, jvp (policy_loss l) d
      = pysum (zip_with Rmult (map (fun t => jvp t d) log_probs)
                              (advantages returns values))) /\
    data (value_function_loss l)
      = 1 / 2 * pysum (map (fun x => x * x) (advantages returns values)) /\
    (forall d, jvp (value_function_loss l) d
      = - pysum (zip_with Rmult (advantages returns values)
                                (map (fun t => jvp t d) values))) /\
    data (loss l) = data (policy_loss l) + data (value_function_loss l) /\
    (forall d, jvp (loss l) d = jvp (policy_loss l) d + jvp (value_function_loss l) d).
Proof.
  intros Hv Hlp. unfold assemble_loss.
  assert (length (map const returns) = length values) as Hshape
    by (rewrite length_map; lia).
  assert (length log_probs
          = length (map detach (zip_with t_sub (map const returns) values)))
    as Hshape'.
  { rewrite length_map, length_zip_with, length_map; lia. }
  rewrite (broadcast_same t_sub _ _ Hshape). cbn [mbind result_bind].
  rewrite (broadcast_same t_mul _ _ Hshape'). cbn [mbind result_bind mret result_ret].
  destruct (policy_terms returns values log_probs Hv Hlp) as [Hpd Hpj].
  destruct (value_terms returns values Hv) as [Hvd Hvj].
  eexists. split; [reflexivity|]. cbn [policy_loss value_function_loss loss].
  split; [by rewrite t_sum_data, Hpd|].
  split; [intros d; by rewrite t_sum_jvp, Hpj|].
  split; [cbn; by rewrite t_sum_data, Hvd|].
  split; [|done].
  intros d. cbn. rewrite t_sum_jvp, Hvj, pysum_mult_l. lra.
Qed.
End LossFacts.

(** ** The training loop *)

Module TrainerFacts.
Import Trainer ReturnComputer Vocabulary Notions RealStats TensorFacts NetFacts LossFacts.
Open Scope R_scope.

Lemma step_rewards_app (evs evs' : list event) :
  step_rewards (evs ++ evs') = step_rewards evs ++ step_rewards evs'.
Proof.
  induction evs as [|ev evs IH]; [done|]. destruct ev; cbn; by rewrite ?IH.
Qed.

Lemma step_rewards_length (evs : list event) :
  Forall (fun ev => is_env_step ev = true) evs ->
  length (step_rewards evs) = length evs.
Proof.
  induction 1 as [|ev evs Hev _ IH]; [done|].
  destruct ev; try done. cbn. by rewrite IH.
Qed.

Lemma zero_steps_env (evs : list event) :
  Forall zero_step evs -> Forall (fun ev => is_env_step ev = true) evs.
Proof. intros Hevs. eapply Forall_impl; [exact Hevs|]. by intros ev [r ->]. Qed.

Lemma tail_drop {X} (xs : list X) (k : nat) : tail (drop k xs) = drop (S k) xs.
Proof.
  revert k. induction xs as [|x xs IH]; intros [|k]; cbn; done.
Qed.

Lemma lastn_snoc {X} (xs : list X) (x : X) :
  deque_append 50 (lastn 50 xs) x = lastn 50 (xs ++ [x]).
Proof.
  unfold deque_append, lastn.
  rewrite !length_app, length_drop. cbn [length].
  destruct (decide (length xs < 50)%nat) as [Hlt|Hge].
  - replace (length xs - 50)%nat with 0%nat by lia.
    replace (length xs + 1 - 50)%nat with 0%nat by lia.
    rewrite !drop_0. by destruct (Nat.ltb_spec 50 (length xs - 0 + 1)); [lia|].
  - destruct (Nat.ltb_spec 50 (length xs - (length xs - 50) + 1)); [|lia].
    replace (length xs + 1 - 50)%nat with (S (length xs - 50)) by lia.
    rewrite (drop_app_le xs [x] (S _)) by lia.
    rewrite <- (drop_app_le xs [x] (length xs - 50)) by lia.
    rewrite tail_drop. by rewrite (drop_app_le xs [x] (S _)) by lia.
Qed.

(** The value estimate does not depend on the policy head. *)
Lemma value_flat_policy (theta : Params) (x : list Tensor) (lp : LinearParams) :
  Forall (flat (in_group PolicyHead lp)) x ->
  flat (in_group PolicyHead lp) (value_of (Net_default theta) x).
Proof.
  intros Hx. unfold value_of. apply flat_add; [|done].
  apply flat_dot; [done|]. unfold hidden.
  apply Forall_map, Forall_map, Forall_forall. intros i _.
  apply flat_relu, flat_add; [|done]. by apply flat_dot.
Qed.

Lemma compute_returns_length (rewards : list R) (gamma : R) :
  length (compute_returns rewards gamma) = length rewards.
Proof.
  unfold compute_returns, scale, centre. rewrite !length_map.
  by rewrite ReturnFacts.discounted_returns_eq, ReturnFacts.returns_from_length.
Qed.

Section Run.
Context {EnvState Rng OptState : Type}.
Variable env_reset : EnvState -> EnvState * list R.
Variable env_step : EnvState -> nat -> EnvState * (list R * R * bool).
Variable multinomial : Rng -> list R -> Rng * nat.
Variable optimizer_step : OptState -> Params -> Params -> OptState * Params.

(** The environment's observations are vectors of 8 numbers, and the sampler
    returns the index of one of the probabilities it is given. *)
Hypothesis reset_shape : forall e, length (env_reset e).2 = 8%nat.
Hypothesis step_shape : forall e a, length (env_step e a).2.1.1 = 8%nat.
Hypothesis sample_in_range :
  forall g ps, ps <> [] -> ((multinomial g ps).2 < length ps)%nat.

Abbreviation Trajectory := (@Trajectory EnvState Rng).
Abbreviation State := (@State EnvState Rng OptState).
Abbreviation rollout := (rollout env_step multinomial).
Abbreviation collect := (collect env_reset env_step multinomial).

Lemma forward_default (theta : Params) (state : list R) :
  length state = 8%nat ->
  let v := value_of (Net_default theta) (map const state) in
  forward (Net_default theta) (map const state) = Ok (Categorical_init [v], [v]).
Proof.
  intros Hstate v. unfold Net_default.
  by rewrite forward_Net_init by (by rewrite length_map).
Qed.

Lemma sample_singleton (v : Tensor) (g : Rng) :
  (sample multinomial (Categorical_init [v]) g).2 = 0%nat.
Proof.
  unfold sample.
  pose proof (sample_in_range g (probs (Categorical_init [v]))) as Hlt.
  cbn in *. specialize (Hlt ltac:(done)). lia.
Qed.

Lemma rollout_ok (theta : Params) (steps : nat) :
  forall (state : list R) (tr : Trajectory),
    length state = 8%nat -> trajectory_ok tr ->
    exists tr' evs,
      rollout steps (Net_default theta) state tr = Ok tr' /\
      trajectory_ok tr' /\
      t_trace tr' = t_trace tr ++ evs /\
      Forall zero_step evs /\
      (steps <> 0%nat -> evs <> []).
Proof.
  induction steps as [|steps IH]; intros state tr Hstate Htr.
  - exists tr, []. by rewrite app_nil_r.
  - cbn [Trainer.rollout]. rewrite forward_default by done.
    cbn [mbind result_bind].
    set (v := value_of (Net_default theta) (map const state)).
    pose proof (sample_singleton v (t_rng tr)) as Haction.
    destruct (sample multinomial (Categorical_init [v]) (t_rng tr)) as [g action].
    cbn in Haction. subst action.
    destruct (singleton_logit v) as (lp & Hlogits & Hdata & Hjvp).
    unfold log_prob. rewrite Hlogits. cbn [lookup list_lookup mbind result_bind].
    pose proof (step_shape (t_env tr) 0%nat) as Hshape.
    destruct (env_step (t_env tr) 0%nat) as [e [[state' reward] done]].
    cbn in Hshape. rewrite Hdata.
    set (tr1 := {| t_env := e |}).
    assert (trajectory_ok tr1) as Htr1.
    { destruct Htr as [Hlp Hv Hlen Hlen']. split; cbn.
      - apply Forall_app. split; [done|]. constructor; [|done]. by exists lp.
      - apply Forall_app. split; [done|]. constructor; [|done].
        split; [done|]. intros lp'. constructor; [|done].
        apply value_flat_policy, Forall_map, Forall_forall. by intros.
      - rewrite !length_app. cbn. lia.
      - rewrite !length_app. cbn. lia. }
    destruct done.
    + exists tr1, [EnvStep 0 0 reward].
      split; [done|]. split; [done|]. split; [done|]. split; [|done].
      constructor; [by exists reward|done].
    + destruct (IH state' tr1 Hshape Htr1) as (tr' & evs & Hrun & Hok & Htrace & Hevs & _).
      exists tr', (EnvStep 0 0 reward :: evs). split; [done|]. split; [done|].
      split; [|split; [|done]].
      * rewrite Htrace. cbn. by rewrite <- app_assoc.
      * constructor; [by exists reward|done].
Qed.

Lemma collect_ok (st : State) :
  exists tr evs,
    collect st = Ok tr /\ trajectory_ok tr /\
    t_trace tr = trace st ++ EnvReset :: evs /\
    Forall zero_step evs /\ evs <> [].
Proof.
  unfold Trainer.collect.
  pose proof (reset_shape (env st)) as Hshape.
  destruct (env_reset (env st)) as [e state]. cbn in Hshape.
  set (tr0 := {| t_env := e |}).
  assert (trajectory_ok tr0) as Htr0 by (by split; cbn).
  destruct (rollout_ok (params st) 1000 state tr0 Hshape Htr0)
    as (tr & evs & Hrun & Hok & Htrace & Hevs & Hne).
  exists tr, evs. split; [done|]. split; [done|].
  split; [|split; [done|by apply Hne]].
  rewrite Htrace. cbn. by rewrite <- app_assoc.
Qed.

(** What a collection that returns has added to the trajectory. *)
Lemma rollout_inv (theta : Params) (steps : nat) :
  forall (state : list R) (tr tr' : Trajectory),
    rollout steps (Net_default theta) state tr = Ok tr' ->
    exists evs new_values,
      t_trace tr' = t_trace tr ++ evs /\
      Forall (fun ev => is_env_step ev = true) evs /\
      (length evs <= steps)%nat /\ (steps <> 0%nat -> evs <> []) /\
      rewards tr' = rewards tr ++ step_rewards evs /\
      values tr' = values tr ++ new_values /\
      Forall (fun v => exists state,
                v = [value_of (Net_default theta) (map const state)]) new_values.
Proof.
  induction steps as [|steps IH]; intros state tr tr' Hrun.
  - injection Hrun as <-. exists [], []. by rewrite !app_nil_r.
  - cbn [Trainer.rollout] in Hrun.
    destruct (decide (length state = 8%nat)) as [Hstate|Hstate]; last first.
    { unfold Net_default in Hrun.
      by rewrite forward_wrong_size in Hrun by (by rewrite length_map). }
    rewrite forward_default in Hrun by done. cbn [mbind result_bind] in Hrun.
    set (v := value_of (Net_default theta) (map const state)) in *.
    destruct (sample multinomial (Categorical_init [v]) (t_rng tr)) as [g action].
    destruct (log_prob (Categorical_init [v]) action) as [lp|]; [|done].
    cbn [mbind result_bind] in Hrun.
    destruct (env_step (t_env tr) action) as [e [[state' reward] done]].
    destruct done.
    + injection Hrun as <-.
      exists [EnvStep action (data lp) reward], [[v]]. cbn.
      split; [done|]. split; [by constructor|]. split; [lia|].
      split; [done|]. split; [done|]. split; [done|].
      constructor; [by exists state|done].
    + apply IH in Hrun as (evs & vs & Htrace & Hevs & Hlen & _ & Hrewards & Hvalues & Hvs).
      cbn in Htrace, Hrewards, Hvalues.
      exists (EnvStep action (data lp) reward :: evs), ([v] :: vs). cbn.
      split; [by rewrite Htrace, <- app_assoc|]. split; [by constructor|].
      split; [lia|]. split; [done|].
      split; [by rewrite Hrewards, <- app_assoc|].
      split; [by rewrite Hvalues, <- app_assoc|].
      constructor; [by exists state|done].
Qed.

Lemma concat_singletons {X} (P : X -> Prop) (xss : list (list X)) :
  Forall (fun xs => exists x, xs = [x] /\ P x) xss ->
  length (concat xss) = length xss /\ Forall P (concat xss).
Proof.
  induction 1 as [|xs xss (x & -> & Hx) _ [IHlen IH]]; cbn; [done|].
  split; [by rewrite IHlen|by constructor].
Qed.

Lemma zip_zero_l (xs ys : list R) :
  Forall (fun x => x = 0) xs -> Forall (fun x => x = 0) (zip_with Rmult xs ys).
Proof.
  intros Hxs. revert ys. induction Hxs as [|x xs -> _ IH]; intros [|y ys]; cbn;
    constructor; [lra|apply IH].
Qed.

Lemma zip_zero_r (xs ys : list R) :
  Forall (fun y => y = 0) ys -> Forall (fun x => x = 0) (zip_with Rmult xs ys).
Proof.
  intros Hys. revert xs. induction Hys as [|y ys -> _ IH]; intros [|x xs]; cbn;
    constructor; [lra|apply IH].
Qed.

(** The loss of a collected trajectory.  It is the sum of the two terms of
    the notebook's formula; the policy term moves with the log-probabilities
    only, the advantage entering as a fixed weight; and with the
    log-probabilities of this network the policy term is constant, so that
    nothing reaches the policy head. *)
Lemma episode_loss_ok (tr : Trajectory) :
  trajectory_ok tr ->
  let G := compute_returns (rewards tr) gamma in
  let vs := concat (values tr) in
  let lps := concat (log_probs tr) in
  exists l, episode_loss tr = Ok l /\
    data (loss l)
      = pysum (zip_with Rmult (map data lps) (advantages G vs))
        + 1 / 2 * pysum (map (fun x => x * x) (advantages G vs)) /\
    (forall d, jvp (loss l) d
      = pysum (zip_with Rmult (map (fun t => jvp t d) lps) (advantages G vs))
        - pysum (zip_with Rmult (advantages G vs) (map (fun t => jvp t d) vs))) /\
    (forall d, jvp (policy_loss l) d
      = pysum (zip_with Rmult (map (fun t => jvp t d) lps) (advantages G vs))) /\
    (forall d, jvp (policy_loss l) d = 0) /\
    (forall lp, jvp (loss l) (in_group PolicyHead lp) = 0).
Proof.
  intros [Hlp Hv Hlen Hlen'] G vs lps.
  destruct (concat_singletons (fun t => data t = 0 /\ forall d, jvp t d = 0)
              (log_probs tr) Hlp) as [Hlps_len Hlps].
  destruct (concat_singletons (fun t => forall lp, flat (in_group PolicyHead lp) t)
              (values tr)) as [Hvs_len Hvs].
  { eapply Forall_impl; [exact Hv|]. intros [|v [|? ?]] [Hl Hflat]; try done.
    exists v. split; [done|]. intros lp. by eapply Forall_inv. }
  fold lps in Hlps_len, Hlps. fold vs in Hvs_len, Hvs.
  destruct (assemble_loss_ok G vs lps) as (l & Hl & Hpd & Hpj & Hvd & Hvj & Hd & Hj).
  { unfold G. rewrite compute_returns_length. lia. }
  { unfold G. rewrite compute_returns_length. lia. }
  assert (forall d, jvp (policy_loss l) d = 0) as Hp0.
  { intros d. rewrite Hpj. apply pysum_zero, zip_zero_l, Forall_map.
    eapply Forall_impl; [exact Hlps|]. by intros t [_ Ht]. }
  exists l. split; [exact Hl|]. split; [by rewrite Hd, Hpd, Hvd|].
  split; [intros d; rewrite Hj, Hpj, Hvj; lra|]. split; [done|]. split; [done|].
  intros lp. rewrite Hj, Hp0, Hvj.
  rewrite (pysum_zero (zip_with _ _ _)); [lra|].
  apply zip_zero_r, Forall_map. eapply Forall_impl; [exact Hvs|].
  intros t Ht. apply Ht.
Qed.

(** Claim C5, checked on the code.  The advantage is detached: the
    derivative of the policy loss is the sum of the derivatives of the
    log-probabilities weighted by the advantages, with no term for the
    values, and it is zero along every perturbation, those of the value head
    included.  But the composite loss does not reach both heads: its gradient
    in the weights and biases of the policy head is zero in every episode,
    because the distribution, hence every log-probability, is built from the
    value head's output. *)
Theorem policy_head_gets_no_gradient (st : State) :
  exists tr l,
    collect st = Ok tr /\ episode_loss tr = Ok l /\
    (forall d, jvp (policy_loss l) d
       = pysum (zip_with Rmult
                  (map (fun t => jvp t d) (concat (log_probs tr)))
                  (advantages (compute_returns (rewards tr) gamma)
                              (concat (values tr))))) /\
    (forall d, jvp (policy_loss l) d = 0) /\
    (forall i j, lp_weight (policy (backward (loss l))) i j = 0) /\
    (forall i, lp_bias (policy (backward (loss l))) i = 0).
Proof.
  destruct (collect_ok st) as (tr & steps & Hcollect & Hok & _).
  destruct (episode_loss_ok tr Hok) as (l & Hl & _ & _ & Hdetach & Hzero & Hpolicy).
  exists tr, l. split; [done|]. split; [done|]. split; [done|]. split; [done|].
  split; intros; apply Hpolicy.
Qed.

End Run.
End TrainerFacts.

(** ** The episode loop *)

Module RunFacts.
Import Numerics ReturnComputer Vocabulary Notions RealStats TensorFacts NetFacts
  LossFacts TrainerFacts.
Open Scope R_scope.

Lemma count_app {X} (p : X -> bool) (evs evs' : list X) :
  count p (evs ++ evs') = (count p evs + count p evs')%nat.
Proof. induction evs as [|ev evs IH]; cbn; [done|]. rewrite IH. lia. Qed.

Lemma count_steps_none (p : run_event -> bool) (steps : list event) :
  (forall action log_prob reward, p (Did (EnvStep action log_prob reward)) = false) ->
  Forall (fun ev => is_env_step ev = true) steps -> count p (map Did steps) = 0%nat.
Proof.
  intros Hp. induction 1 as [|ev evs Hev _ IH]; cbn; [done|].
  destruct ev; try done. by rewrite Hp, IH.
Qed.

Lemma count_steps_all (steps : list event) :
  Forall (fun ev => is_env_step ev = true) steps ->
  count is_step (map Did steps) = length steps.
Proof.
  induction 1 as [|ev evs Hev _ IH]; cbn; [done|]. by rewrite Hev, IH.
Qed.



(** The divisor of the normalization is 0 exactly when the returns are all
    equal. *)
Lemma divisor_zero_iff (rewards : list R) (gamma : R) :
  normalization_divisor rewards gamma = 0 <-> all_equal (discounted_returns rewards gamma).
Proof.
  unfold normalization_divisor. by rewrite std_zero_all_equal, all_equal_centre.
Qed.

Lemma short_divisor_zero (rewards : list R) (gamma : R) :
  (length rewards < 2)%nat -> normalization_divisor rewards gamma = 0.
Proof.
  intros Hlen. apply divisor_zero_iff.
  assert (length (discounted_returns rewards gamma) < 2)%nat as Hshort
    by (by rewrite ReturnFacts.discounted_returns_eq, ReturnFacts.returns_from_length).
  destruct (discounted_returns rewards gamma) as [|a [|b xs]]; cbn in Hshort;
    intros x y Hx Hy; [done| |lia].
  destruct Hx as [<-|[]]. by destruct Hy as [<-|[]].
Qed.

Lemma episode_events_count (episode : nat) (evs : list run_event) :
  episode_events episode evs ->
  count is_backward evs = 1%nat /\ count is_optimizer_step evs = 1%nat.
Proof.
  intros (steps & b & report & -> & _ & Hsteps & Hb & Hreport).
  cbn [count is_backward is_optimizer_step]. rewrite !count_app.
  rewrite !(count_steps_none _ steps) by done.
  cbn [count]. rewrite Hb.
  assert (is_optimizer_step b = false) as -> by (by destruct b as [[]|]).
  by destruct Hreport as [->|[average ->]].
Qed.

Lemma episodes_count (episodes : list nat) (chunks : list (list run_event)) :
  Forall2 episode_events episodes chunks ->
  count is_backward (concat chunks) = length episodes /\
  count is_optimizer_step (concat chunks) = length episodes.
Proof.
  induction 1 as [|episode evs episodes chunks Hevs _ [IHb IHo]]; [done|].
  destruct (episode_events_count episode evs Hevs) as [Hb Ho].
  cbn [concat length]. rewrite !count_app. lia.
Qed.

Lemma in_episode_trace (ev : run_event) (old : list run_event) (steps : list event)
    (b : run_event) (report : list run_event) :
  In ev (old ++ Did EnvReset :: map Did steps ++ [Did ZeroGrad; b; Did OptimizerStep]
           ++ report) ->
  In ev old \/ (exists s, ev = Did s /\ In s steps) \/ In ev report \/
  ev = Did EnvReset \/ ev = Did ZeroGrad \/ ev = b \/ ev = Did OptimizerStep.
Proof.
  rewrite in_app_iff. cbn [In]. rewrite in_app_iff, in_map_iff. cbn [app In].
  intros [?|[?|[(s & ? & ?)|[?|[?|[?|?]]]]]]; eauto 10.
Qed.

Lemma zero_steps_in (ev : event) (steps : list event) :
  Forall zero_step steps -> In ev steps -> zero_step ev.
Proof. rewrite List.Forall_forall. auto. Qed.

Section Run.
Context {EnvState Rng OptState : Type}.
Variable env_reset : EnvState -> EnvState * list R.
Variable env_step : EnvState -> nat -> EnvState * (list R * R * bool).
Variable multinomial : Rng -> list R -> Rng * nat.
Variable optimizer_step : OptState -> Params -> Params -> OptState * Params.
Variable nonfinite_logits : Params -> list R -> bool.
Variable nonfinite_update : OptState -> Params -> @Trajectory EnvState Rng -> bool.

Abbreviation Trajectory := (@Trajectory EnvState Rng).
Abbreviation Progress := (@Progress EnvState Rng OptState).
Abbreviation episode_steps := (episode_steps env_step multinomial).
Abbreviation collect_trajectory :=
  (@collect_trajectory EnvState Rng OptState env_reset env_step multinomial
     nonfinite_logits).
Abbreviation run_episode :=
  (run_episode env_reset env_step multinomial optimizer_step
     nonfinite_logits nonfinite_update).
Abbreviation run_episodes :=
  (run_episodes env_reset env_step multinomial optimizer_step
     nonfinite_logits nonfinite_update).
Abbreviation reinforce_learned_baseline :=
  (reinforce_learned_baseline env_reset env_step multinomial optimizer_step
     nonfinite_logits nonfinite_update).

(** The environment's observations are vectors of 8 numbers, and the sampler
    returns the index of one of the probabilities it is given. *)
Hypothesis reset_shape : forall e, length (env_reset e).2 = 8%nat.
Hypothesis step_shape : forall e a, length (env_step e a).2.1.1 = 8%nat.
Hypothesis sample_in_range :
  forall g ps, ps <> [] -> ((multinomial g ps).2 < length ps)%nat.

Lemma call_net_default (nonfinite : bool) (theta : Params) (state : list R) :
  length state = 8%nat ->
  let v := value_of (Net_default theta) (map const state) in
  call_net nonfinite (Net_default theta) (map const state)
  = if nonfinite then Fails NonFinite else Fine (Categorical_init [v], [v]).
Proof. intros Hstate v. unfold call_net. by rewrite forward_default. Qed.

(** The collection loop either comes to its end, and this is what it has
    added to the trajectory, or is left at a call of the network whose
    logits are not finite; every step it has made was made with action 0 and
    recorded the log-probability 0. *)
Lemma episode_steps_ok (nonfinite : list R -> bool) (theta : Params) (steps : nat) :
  forall (state : list R) (tr : Trajectory),
    length state = 8%nat -> trajectory_ok tr ->
    match episode_steps steps nonfinite (Net_default theta) state tr with
    | Returned tr' =>
      trajectory_ok tr' /\ (steps <> 0%nat -> nonfinite state = false) /\
      exists evs,
        t_trace tr' = t_trace tr ++ evs /\ Forall zero_step evs /\
        (length evs <= steps)%nat /\ (steps <> 0%nat -> evs <> []) /\
        rewards tr' = rewards tr ++ step_rewards evs
    | Failed f tr' =>
      f = NonFinite /\ (exists x, nonfinite x = true) /\
      exists evs,
        t_trace tr' = t_trace tr ++ evs /\ Forall zero_step evs /\
        (length evs < steps)%nat /\ (nonfinite state = true -> evs = [])
    end.
Proof.
  induction steps as [|steps IH]; intros state tr Hstate Htr.
  - cbn. split; [done|]. split; [done|]. exists []. by rewrite !app_nil_r.
  - cbn [Numerics.episode_steps].
    pose proof (call_net_default (nonfinite state) theta state Hstate) as Hcall.
    cbv zeta in Hcall. rewrite Hcall. clear Hcall.
    destruct (nonfinite state) eqn:Hnf.
    { split; [done|]. split; [by exists state|]. exists [].
      rewrite app_nil_r. split; [done|]. split; [done|]. split; [cbn; lia|done]. }
    set (v := value_of (Net_default theta) (map const state)).
    pose proof (sample_singleton multinomial sample_in_range v (t_rng tr)) as Haction.
    destruct (sample multinomial (Categorical_init [v]) (t_rng tr)) as [g action].
    cbn in Haction. subst action.
    destruct (singleton_logit v) as (lp & Hlogits & Hdata & Hjvp).
    unfold log_prob. rewrite Hlogits. cbn [lookup list_lookup].
    pose proof (step_shape (t_env tr) 0%nat) as Hshape.
    destruct (env_step (t_env tr) 0%nat) as [e [[state' reward] done]].
    cbn in Hshape. rewrite Hdata.
    set (tr1 := {| t_env := e |}).
    assert (trajectory_ok tr1) as Htr1.
    { destruct Htr as [Hlp Hv Hlen Hlen']. split; cbn.
      - apply Forall_app. split; [done|]. constructor; [|done]. by exists lp.
      - apply Forall_app. split; [done|]. constructor; [|done].
        split; [done|]. intros lp'. constructor; [|done].
        apply value_flat_policy, Forall_map, Forall_forall. by intros.
      - rewrite !length_app. cbn. lia.
      - rewrite !length_app. cbn. lia. }
    destruct done.
    + split; [done|]. split; [done|]. exists [EnvStep 0 0 reward].
      split; [done|]. split; [constructor; [by exists reward|done]|].
      split; [cbn; lia|]. split; [done|]. done.
    + specialize (IH state' tr1 Hshape Htr1).
      destruct (episode_steps steps nonfinite (Net_default theta) state' tr1)
        as [tr'|f tr'].
      * destruct IH as (Hok & _ & evs & Htrace & Hevs & Hlen & _ & Hrewards).
        split; [done|]. split; [done|]. exists (EnvStep 0 0 reward :: evs).
        split; [rewrite Htrace; cbn; by rewrite <- app_assoc|].
        split; [constructor; [by exists reward|done]|].
        split; [cbn; lia|]. split; [done|].
        rewrite Hrewards. cbn. by rewrite <- app_assoc.
      * destruct IH as (-> & Hx & evs & Htrace & Hevs & Hlen & _).
        split; [done|]. split; [done|]. exists (EnvStep 0 0 reward :: evs).
        split; [rewrite Htrace; cbn; by rewrite <- app_assoc|].
        split; [constructor; [by exists reward|done]|].
        split; [cbn; lia|]. done.
Qed.

(** Where the logits are finite the loop is the collection loop of the
    trainer. *)
Lemma episode_steps_finite (nonfinite : list R -> bool) (net : Net) (steps : nat) :
  (forall x, nonfinite x = false) ->
  forall (state : list R) (tr tr' : Trajectory),
    rollout env_step multinomial steps net state tr = Ok tr' ->
    episode_steps steps nonfinite net state tr = Returned tr'.
Proof.
  intros Hfinite. induction steps as [|steps IH]; intros state tr tr' Hrun.
  - by injection Hrun as <-.
  - cbn [Trainer.rollout] in Hrun. cbn [Numerics.episode_steps].
    unfold call_net. rewrite Hfinite.
    destruct (forward net (map const state)) as [[dist value]|]; [|done].
    cbn [mbind result_bind] in Hrun.
    destruct (sample multinomial dist (t_rng tr)) as [g action].
    destruct (log_prob dist action) as [lp|]; [|done].
    cbn [mbind result_bind] in Hrun.
    destruct (env_step (t_env tr) action) as [e [[state' reward] done]].
    destruct done; [by injection Hrun as <-|by apply IH].
Qed.

(** The collection of an episode: on parameters that hold NaN it is left
    right after the reset. *)
Lemma collect_cases (st : Progress) :
  match collect_trajectory st with
  | Returned tr =>
    r_nan st = false /\ trajectory_ok tr /\
    exists steps,
      t_trace tr = EnvReset :: steps /\ Forall zero_step steps /\
      (1 <= length steps <= 1000)%nat /\ rewards tr = step_rewards steps
  | Failed f tr =>
    f = NonFinite /\
    (r_nan st = true \/ exists x, nonfinite_logits (r_params st) x = true) /\
    exists steps,
      t_trace tr = EnvReset :: steps /\ Forall zero_step steps /\
      (length steps < 1000)%nat /\ (r_nan st = true -> steps = [])
  end.
Proof.
  unfold Numerics.collect_trajectory.
  pose proof (reset_shape (r_env st)) as Hshape.
  destruct (env_reset (r_env st)) as [e state]. cbn in Hshape.
  set (tr0 := {| t_env := e |}).
  assert (trajectory_ok tr0) as Htr0 by (by split; cbn).
  pose proof (episode_steps_ok
                (fun state => r_nan st || nonfinite_logits (r_params st) state)
                (r_params st) 1000 state tr0 Hshape Htr0) as Hsteps.
  destruct (episode_steps 1000 _ (Net_default (r_params st)) state tr0) as [tr|f tr].
  - destruct Hsteps as (Hok & Hnf & steps & Htrace & Hzero & Hlen & Hne & Hrewards).
    specialize (Hnf ltac:(done)). specialize (Hne ltac:(done)).
    apply orb_false_elim in Hnf as [Hnan _].
    split; [done|]. split; [done|]. exists steps. split; [done|]. split; [done|].
    split; [|done]. destruct steps; [done|]. cbn [length] in *. lia.
  - destruct Hsteps as (-> & [x Hx] & steps & Htrace & Hzero & Hlen & Hnil).
    split; [done|]. split.
    + destruct (r_nan st); [by left|right; by exists x].
    + exists steps. split; [done|]. split; [done|]. split; [done|].
      intros Hnan. apply Hnil. by rewrite Hnan.
Qed.

(** One iteration of the episode loop.  It returns after one block of
    events, with the update computed from the loss when the returns and the
    update are finite numbers, and with NaN in the parameters when they are
    not; or it is left at a call of the network, having updated nothing. *)
Lemma run_episode_cases (st : Progress) (episode : nat) :
  match run_episode st episode with
  | Returned st' =>
    exists tr steps b,
      collect_trajectory st = Returned tr /\ r_nan st = false /\ trajectory_ok tr /\
      t_trace tr = EnvReset :: steps /\
      Forall zero_step steps /\ (1 <= length steps <= 1000)%nat /\
      rewards tr = step_rewards steps /\
      r_scores st' = r_scores st ++ [pysum (rewards tr)] /\
      r_scores_deque st' = deque_append 50 (r_scores_deque st) (pysum (rewards tr)) /\
      r_trace st'
        = r_trace st ++ Did EnvReset :: map Did steps
            ++ [Did ZeroGrad; b; Did OptimizerStep]
            ++ (if episode mod 50 =? 0
                then [Did (Print episode (mean (r_scores_deque st')))] else []) /\
      ((normalization_divisor (rewards tr) gamma <> 0 /\
        nonfinite_update (r_opt st) (r_params st) tr = false /\
        exists l, episode_loss tr = Ok l /\
          b = Did (Backward (data (loss l))) /\
          (r_opt st', r_params st')
            = optimizer_step (r_opt st) (r_params st) (backward (loss l)) /\
          r_nan st' = false) \/
       ((normalization_divisor (rewards tr) gamma = 0 \/
         nonfinite_update (r_opt st) (r_params st) tr = true) /\
        b = BackwardNaN /\ r_params st' = r_params st /\ r_nan st' = true))
  | Failed f st' =>
    f = NonFinite /\ interrupted st st' /\
    (r_nan st = true \/ exists x, nonfinite_logits (r_params st) x = true)
  end.
Proof.
  unfold Numerics.run_episode. pose proof (collect_cases st) as Hcollect.
  destruct (collect_trajectory st) as [tr|f tr].
  - destruct Hcollect as (Hnan & Hok & steps & Htrace & Hsteps & Hlen & Hrewards).
    unfold returns_are_nan.
    destruct (bool_decide (normalization_divisor (rewards tr) gamma = 0)
              || nonfinite_update (r_opt st) (r_params st) tr) eqn:Hbad.
    + exists tr, steps, BackwardNaN.
      cbn [r_scores r_scores_deque r_trace r_params r_nan].
      split; [done|]. split; [done|]. split; [done|]. split; [done|].
      split; [done|]. split; [done|]. split; [done|]. split; [done|].
      split; [done|]. split; [by rewrite Htrace|].
      right. split; [|done].
      apply orb_true_iff in Hbad as [Hdiv|Hover]; [left|by right].
      by apply bool_decide_eq_true in Hdiv.
    + apply orb_false_elim in Hbad as [Hdiv Hover].
      apply bool_decide_eq_false in Hdiv.
      destruct (episode_loss_ok tr Hok) as (l & Hl & _). rewrite Hl.
      destruct (optimizer_step (r_opt st) (r_params st) (backward (loss l)))
        as [opt' params'] eqn:Hopt.
      exists tr, steps, (Did (Backward (data (loss l)))).
      cbn [r_scores r_scores_deque r_trace r_params r_nan r_opt].
      split; [done|]. split; [done|]. split; [done|]. split; [done|].
      split; [done|]. split; [done|]. split; [done|]. split; [done|].
      split; [done|]. split; [by rewrite Htrace|].
      left. split; [done|]. split; [done|]. by exists l.
  - destruct Hcollect as (-> & Hcause & steps & Htrace & Hsteps & Hlen & Hnil).
    split; [done|]. split; [|done].
    split; [|done]. exists steps. cbn [r_trace]. by rewrite Htrace.
Qed.

(** A property indexed by the number of completed episodes that every
    episode carries on holds at the end of a run that returns; a run that
    does not return has completed some of its episodes and has been left in
    the next, at a call of the network. *)
Lemma run_episodes_outcome (I : nat -> Progress -> Prop) (m : nat) :
  (forall k st st', I k st -> run_episode st (S k) = Returned st' -> I (S k) st') ->
  forall k st, I k st ->
    match run_episodes (seq (S k) m) st with
    | Returned st' => I (k + m)%nat st'
    | Failed f st' =>
      f = NonFinite /\
      exists j st'', (k <= j < k + m)%nat /\ I j st'' /\ interrupted st'' st' /\
        (r_nan st'' = true \/ exists x, nonfinite_logits (r_params st'') x = true)
    end.
Proof.
  intros Hstep. induction m as [|m IH]; intros k st HI.
  - cbn. by rewrite Nat.add_0_r.
  - cbn [seq Numerics.run_episodes].
    pose proof (run_episode_cases st (S k)) as Hcases.
    destruct (run_episode st (S k)) as [st1|f st1] eqn:Hep.
    + specialize (IH (S k) st1 (Hstep k st st1 HI Hep)).
      destruct (run_episodes (seq (S (S k)) m) st1) as [st'|f st'].
      * by replace (k + S m)%nat with (S k + m)%nat by lia.
      * destruct IH as (-> & j & st'' & Hj & HIj & Hint).
        split; [done|]. exists j, st''. split; [lia|]. done.
    + destruct Hcases as (-> & Hint & Hcause).
      split; [done|]. exists k, st. split; [lia|]. done.
Qed.

Lemma reinforce_outcome (I : nat -> Progress -> Prop)
    (env : EnvState) (rng : Rng) (theta : Params) (opt : OptState) (n : nat) :
  I 0%nat {| r_env := env; r_rng := rng; r_params := theta; r_nan := false;
             r_opt := opt; r_scores := []; r_scores_deque := []; r_trace := [] |} ->
  (forall k st st', I k st -> run_episode st (S k) = Returned st' -> I (S k) st') ->
  match reinforce_learned_baseline env rng theta opt n with
  | Returned st' => I n st'
  | Failed f st' =>
    f = NonFinite /\
    exists k st'', (k < n)%nat /\ I k st'' /\ interrupted st'' st' /\
      (r_nan st'' = true \/ exists x, nonfinite_logits (r_params st'') x = true)
  end.
Proof.
  intros H0 Hstep. unfold Numerics.reinforce_learned_baseline.
  set (st0 := {| r_env := env |}).
  pose proof (run_episodes_outcome I n Hstep 0%nat st0 H0) as Hrun.
  destruct (run_episodes (seq 1 n) st0) as [st'|f st']; [done|].
  destruct Hrun as (-> & j & st'' & Hj & HIj & Hint).
  split; [done|]. exists j, st''. split; [lia|]. done.
Qed.

(** The same, for a property that an episode left unfinished does not
    disturb: it holds of the state the run has reached, however the run
    ended, at the number [k] of episodes it has completed. *)
Lemma reinforce_completed (I : nat -> Progress -> Prop)
    (env : EnvState) (rng : Rng) (theta : Params) (opt : OptState) (n : nat) :
  I 0%nat {| r_env := env; r_rng := rng; r_params := theta; r_nan := false;
             r_opt := opt; r_scores := []; r_scores_deque := []; r_trace := [] |} ->
  (forall k st st', I k st -> run_episode st (S k) = Returned st' -> I (S k) st') ->
  (forall k st st', I k st -> interrupted st st' -> I k st') ->
  exists k,
    match reinforce_learned_baseline env rng theta opt n with
    | Returned _ => k = n
    | Failed f _ => f = NonFinite /\ (k < n)%nat
    end /\
    I k (final (reinforce_learned_baseline env rng theta opt n)).
Proof.
  intros H0 Hstep Hint.
  pose proof (reinforce_outcome I env rng theta opt n H0 Hstep) as Hrun.
  destruct (reinforce_learned_baseline env rng theta opt n) as [st'|f st'].
  - by exists n.
  - destruct Hrun as (-> & k & st'' & Hk & HI & Hint' & _).
    exists k. split; [done|]. by apply (Hint k st'').
Qed.

(** When nothing overflows and no episode has returns that are all equal,
    every number stays finite and the run returns. *)
Lemma regular_run_returns (env : EnvState) (rng : Rng) (theta : Params)
    (opt : OptState) (n : nat) :
  (forall th x, nonfinite_logits th x = false) ->
  (forall o th tr, nonfinite_update o th tr = false) ->
  (forall st tr, collect_trajectory st = Returned tr ->
     normalization_divisor (rewards tr) gamma <> 0) ->
  exists st',
    reinforce_learned_baseline env rng theta opt n = Returned st' /\ r_nan st' = false.
Proof.
  intros Hlogits Hupdate Hreg.
  pose proof (reinforce_outcome (fun _ st => r_nan st = false)
                env rng theta opt n eq_refl) as Hrun.
  match type of Hrun with ?step -> _ => assert step as Hstep end.
  { intros k st st1 _ Hep.
    pose proof (run_episode_cases st (S k)) as Hcases. rewrite Hep in Hcases.
    destruct Hcases as (tr & steps & b & Hcollect & _ & _ & _ & _ & _ & _ & _ & _ & _ & Hcases).
    destruct Hcases as [(_ & _ & l & _ & _ & _ & Hn)|([Hdiv|Hover] & _)]; [done| |].
    - by destruct (Hreg st tr Hcollect).
    - by rewrite Hupdate in Hover. }
  specialize (Hrun Hstep).
  destruct (reinforce_learned_baseline env rng theta opt n) as [st'|f st'].
  - by exists st'.
  - destruct Hrun as (_ & k & st'' & _ & Hn & _ & [Hn'|[x Hx]]); [congruence|].
    by rewrite Hlogits in Hx.
Qed.

(** Claim C6.  An episode that is completed adds one block of events to the
    run: the reset, the environment steps, then one [zero_grad],
    [backward], [step], and the report if one is due.  When the returns and
    the update are finite numbers, the loss handed to [backward()] is the
    policy loss plus the value loss, the first the sum over the steps of
    log-probability times advantage with the advantage as a fixed weight,
    the second half the sum of the squared advantages, and the parameters
    after the episode are those returned by the one optimizer step on the
    gradient of that loss.  When they are not, as when the returns are all
    equal and the normalization is [0 / 0], the same three calls are made
    once and leave NaN in the parameters.  An episode that is not completed
    updates nothing: it is left at a call of the network, after the reset
    and some environment steps, and one begun on NaN right after the reset.
    So a run that returns is [n] blocks, with [n] backward passes and [n]
    optimizer steps, none inside an episode; and a run that raises is
    [k < n] blocks and the start of the episode that raised, with [k]
    backward passes and [k] optimizer steps. *)
Theorem one_update_per_episode :
  (forall (st : Progress) (episode : nat),
     match run_episode st episode with
     | Returned st' =>
       exists tr steps b,
         collect_trajectory st = Returned tr /\
         t_trace tr = EnvReset :: steps /\
         let block :=
           Did EnvReset :: map Did steps ++ [Did ZeroGrad; b; Did OptimizerStep]
             ++ (if episode mod 50 =? 0
                 then [Did (Print episode (mean (r_scores_deque st')))] else []) in
         r_trace st' = r_trace st ++ block /\
         episode_events episode block /\
         ((exists l,
             episode_loss tr = Ok l /\
             let A := advantages (compute_returns (rewards tr) gamma)
                                 (concat (values tr)) in
             data (loss l)
               = pysum (zip_with Rmult (map data (concat (log_probs tr))) A)
                 + 1 / 2 * pysum (map (fun x => x * x) A) /\
             (forall d, jvp (loss l) d
               = pysum (zip_with Rmult
                          (map (fun t => jvp t d) (concat (log_probs tr))) A)
                 - pysum (zip_with Rmult A
                            (map (fun t => jvp t d) (concat (values tr))))) /\
             b = Did (Backward (data (loss l))) /\
             (r_opt st', r_params st')
               = optimizer_step (r_opt st) (r_params st) (backward (loss l)) /\
             r_nan st' = false) \/
          (b = BackwardNaN /\ r_nan st' = true)) /\
         (normalization_divisor (rewards tr) gamma = 0 ->
          b = BackwardNaN /\ r_nan st' = true)
     | Failed f st' =>
       f = NonFinite /\
       exists steps,
         r_trace st' = r_trace st ++ Did EnvReset :: map Did steps /\
         Forall (fun ev => is_env_step ev = true) steps /\
         (r_nan st = true -> steps = []) /\
         r_params st' = r_params st /\ r_nan st' = r_nan st
     end) /\
  (forall (st : Progress) (episode : nat),
     r_nan st = true ->
     exists st',
       run_episode st episode = Failed NonFinite st' /\
       r_trace st' = r_trace st ++ [Did EnvReset]) /\
  (forall env rng theta opt (n : nat),
     match reinforce_learned_baseline env rng theta opt n with
     | Returned st' =>
       exists chunks,
         r_trace st' = concat chunks /\
         Forall2 episode_events (seq 1 n) chunks /\
         count is_backward (r_trace st') = n /\
         count is_optimizer_step (r_trace st') = n
     | Failed f st' =>
       f = NonFinite /\
       exists k chunks steps,
         (k < n)%nat /\
         r_trace st' = concat chunks ++ Did EnvReset :: map Did steps /\
         Forall (fun ev => is_env_step ev = true) steps /\
         Forall2 episode_events (seq 1 k) chunks /\
         count is_backward (r_trace st') = k /\
         count is_optimizer_step (r_trace st') = k
     end).
Proof.
  match goal with |- ?per_episode /\ _ => assert per_episode as Hepisode end.
  { intros st episode. pose proof (run_episode_cases st episode) as Hcases.
    destruct (run_episode st episode) as [st'|f st'].
    - destruct Hcases
        as (tr & steps & b & Hcollect & _ & Hok & Htrace & Hsteps & Hlen & _
            & _ & _ & Htrace' & Hcases).
      exists tr, steps, b. split; [done|]. split; [done|].
      cbv zeta. split; [done|].
      assert (is_backward b = true) as Hb
        by (by destruct Hcases as [(_ & _ & l & _ & -> & _)|(_ & -> & _)]).
      split.
      { exists steps, b, (if episode mod 50 =? 0
                          then [Did (Print episode (mean (r_scores_deque st')))] else []).
        split; [done|]. split; [destruct steps; [cbn in Hlen; lia|done]|].
        split; [by apply zero_steps_env|]. split; [done|].
        destruct (episode mod 50 =? 0)%nat; eauto. }
      split.
      + destruct Hcases as [(_ & _ & l & Hl & -> & Hopt & Hnan')|(_ & -> & _ & ->)];
          [left|by right].
        destruct (episode_loss_ok tr Hok) as (l' & Hl' & Hdata & Hjvp & _).
        assert (l' = l) as -> by congruence.
        by exists l.
      + intros Hdiv.
        by destruct Hcases as [(Hdiv' & _)|(_ & -> & _ & ->)].
    - destruct Hcases as (-> & ((steps & Htrace & Hsteps & _ & Hnil) & _ & _ & Hp & Hn) & _).
      split; [done|]. exists steps. split; [done|].
      split; [by apply zero_steps_env|]. done. }
  split; [exact Hepisode|]. split.
  { intros st episode Hnan. pose proof (run_episode_cases st episode) as Hcases.
    destruct (run_episode st episode) as [st'|f st'].
    - destruct Hcases as (tr & steps & b & _ & Hnan' & _). congruence.
    - destruct Hcases as (-> & ((steps & Htrace & _ & _ & Hnil) & _) & _).
      exists st'. split; [done|]. by rewrite Htrace, (Hnil Hnan). }
  intros env rng theta opt n.
  pose proof (reinforce_outcome
                (fun k st => exists chunks,
                   r_trace st = concat chunks /\ Forall2 episode_events (seq 1 k) chunks)
                env rng theta opt n) as Hrun.
  specialize (Hrun ltac:(by exists [])).
  match type of Hrun with ?step -> _ => assert step as Hstep end.
  { intros k st st1 (chunks & Htrace & Hchunks) Hep.
    pose proof (Hepisode st (S k)) as Hblock. rewrite Hep in Hblock.
    destruct Hblock as (tr & steps & b & _ & _ & Htrace' & Hevs & _).
    eexists (chunks ++ [_]). split.
    - rewrite Htrace', Htrace, concat_app. cbn [concat]. by rewrite app_nil_r.
    - rewrite seq_S. apply Forall2_app; [done|]. by constructor. }
  specialize (Hrun Hstep).
  destruct (reinforce_learned_baseline env rng theta opt n) as [st'|f st'].
  - destruct Hrun as (chunks & Htrace & Hchunks). exists chunks.
    split; [done|]. split; [done|].
    destruct (episodes_count _ _ Hchunks) as [Hb Ho].
    by rewrite Htrace, Hb, Ho, length_seq.
  - destruct Hrun
      as (-> & k & st'' & Hk & (chunks & Htrace & Hchunks)
          & ((steps & Htrace' & Hsteps & _) & _) & _).
    apply zero_steps_env in Hsteps.
    split; [done|]. exists k, chunks, steps. split; [done|].
    split; [by rewrite Htrace', Htrace|]. split; [done|]. split; [done|].
    destruct (episodes_count _ _ Hchunks) as [Hb Ho].
    rewrite Htrace', Htrace, !count_app, Hb, Ho, length_seq.
    cbn [count is_backward is_optimizer_step].
    rewrite !(count_steps_none _ steps) by done. lia.
Qed.

(** Claim C7.  Every completed episode appends its total reward to [scores]
    and to the window of 50.  Whether the run returns, after all [n]
    episodes, or raises, after [k < n] of them, [scores] has one entry for
    each completed episode, the window holds the last 50 of them, there is a
    report for exactly the completed episodes that are multiples of 50, and
    the average reported at episode [e] is the arithmetic mean of the last
    [min 50 e] of the first [e] scores. *)
Theorem rolling_average_is_window_mean :
  (forall (st : Progress) (episode : nat),
     match run_episode st episode with
     | Returned st' =>
       exists tr,
         collect_trajectory st = Returned tr /\
         r_scores st' = r_scores st ++ [pysum (rewards tr)] /\
         r_scores_deque st'
           = deque_append 50 (r_scores_deque st) (pysum (rewards tr))
     | Failed f st' =>
       r_scores st' = r_scores st /\ r_scores_deque st' = r_scores_deque st
     end) /\
  (forall env rng theta opt (n : nat),
     exists k,
       match reinforce_learned_baseline env rng theta opt n with
       | Returned _ => k = n
       | Failed f _ => f = NonFinite /\ (k < n)%nat
       end /\
       let st' := final (reinforce_learned_baseline env rng theta opt n) in
       length (r_scores st') = k /\
       r_scores_deque st' = lastn 50 (r_scores st') /\
       (forall e average, In (Did (Print e average)) (r_trace st') ->
          (1 <= e <= k)%nat /\ (e mod 50 = 0)%nat /\
          average = mean (lastn (Nat.min 50 e) (take e (r_scores st')))) /\
       (forall e, (1 <= e <= k)%nat -> (e mod 50 = 0)%nat ->
          exists average, In (Did (Print e average)) (r_trace st'))).
Proof.
  split.
  { intros st episode. pose proof (run_episode_cases st episode) as Hcases.
    destruct (run_episode st episode) as [st'|f st'].
    - destruct Hcases as (tr & steps & b & Hcollect & _ & _ & _ & _ & _ & _
                          & Hscores & Hdeque & _).
      by exists tr.
    - by destruct Hcases as (_ & (_ & Hscores & Hdeque & _) & _). }
  intros env rng theta opt n.
  apply (reinforce_completed
           (fun k st =>
              length (r_scores st) = k /\
              r_scores_deque st = lastn 50 (r_scores st) /\
              (forall e average, In (Did (Print e average)) (r_trace st) ->
                 (1 <= e <= k)%nat /\ (e mod 50 = 0)%nat /\
                 average = mean (lastn (Nat.min 50 e) (take e (r_scores st)))) /\
              (forall e, (1 <= e <= k)%nat -> (e mod 50 = 0)%nat ->
                 exists average, In (Did (Print e average)) (r_trace st)))).
  - split; [done|]. split; [done|]. split; [done|]. intros e He. lia.
  - intros k st st1 (Hlen & Hdeque & Hreports & Hall) Hep.
    pose proof (run_episode_cases st (S k)) as Hcases. rewrite Hep in Hcases.
    destruct Hcases
      as (tr & steps & b & _ & _ & _ & _ & Hsteps & _ & _ & Hscores & Hdeque'
          & Htrace & Hcases).
    assert (forall e average, b <> Did (Print e average)) as Hb
      by (by destruct Hcases as [(_ & _ & l & _ & -> & _)|(_ & -> & _)]).
    assert (length (r_scores st1) = S k) as Hlen1
      by (rewrite Hscores, length_app; cbn; lia).
    assert (r_scores_deque st1 = lastn 50 (r_scores st1)) as Hdeque1
      by (by rewrite Hdeque', Hdeque, Hscores, lastn_snoc).
    split; [done|]. split; [done|]. split.
    + intros e average Hin. rewrite Htrace in Hin.
      apply in_episode_trace in Hin.
      destruct Hin as [Hin|[(s & [= <-] & Hin)|[Hin|Hin]]].
      * destruct (Hreports e average Hin) as (He & Hmod & ->).
        split; [lia|]. split; [done|].
        by rewrite Hscores, take_app_le by lia.
      * by destruct (zero_steps_in _ _ Hsteps Hin).
      * destruct (Nat.eqb_spec (S k mod 50) 0) as [Hmod|]; [|done].
        destruct Hin as [[= <- <-]|[]].
        split; [lia|]. split; [done|].
        rewrite take_ge by lia. rewrite Hdeque1.
        assert (50 <= S k)%nat.
        { destruct (decide (S k < 50)%nat) as [Hlt|]; [|lia].
          rewrite Nat.mod_small in Hmod; lia. }
        by replace (Nat.min 50 (S k)) with 50%nat by lia.
      * destruct Hin as [|[|[Hin|]]]; try done. by destruct (Hb e average).
    + intros e He Hmod. rewrite Htrace.
      destruct (decide (e = S k)) as [->|Hne].
      * exists (mean (r_scores_deque st1)).
        rewrite (proj2 (Nat.eqb_eq _ _) Hmod).
        rewrite in_app_iff. right. right. rewrite in_app_iff. right.
        cbn. auto.
      * destruct (Hall e ltac:(lia) Hmod) as [average Hin].
        exists average. rewrite in_app_iff. by left.
  - intros k st st' (Hlen & Hdeque & Hreports & Hall)
      ((steps & Htrace & Hsteps & _) & Hscores & Hdeque' & _).
    rewrite Htrace, Hscores, Hdeque'. split; [done|]. split; [done|]. split.
    + intros e average Hin. apply in_app_iff in Hin as [Hin|[[=]|Hin]].
      * by apply Hreports.
      * apply in_map_iff in Hin as (s & [= ->] & Hin).
        by destruct (zero_steps_in _ _ Hsteps Hin).
    + intros e He Hmod. destruct (Hall e He Hmod) as [average Hin].
      exists average. apply in_app_iff. by left.
Qed.

(** Claim C8.  Whenever the call of the network returns, it returns the
    distribution built from the value head's single output: it has one
    category, sampling from it gives action 0, and the log-probability of
    that action is 0.  (When the logits are not finite numbers, as on
    parameters that hold NaN, there is no distribution: the call raises.)
    In a training run of any length, however it ends, every environment
    step is taken with action 0 and records the log-probability 0. *)
Theorem every_action_is_zero :
  (forall (nonfinite : bool) theta (x : list Tensor),
     length x = 8%nat ->
     if nonfinite
     then call_net nonfinite (Net_default theta) x = Fails NonFinite
     else exists dist value lp,
       call_net nonfinite (Net_default theta) x = Fine (dist, value) /\
       length value = 1%nat /\
       dist = Categorical_init value /\
       cardinality dist = 1%nat /\
       (forall g, (sample multinomial dist g).2 = 0%nat) /\
       log_prob dist 0 = Ok lp /\ data lp = 0) /\
  (forall env rng theta opt (n : nat) action log_prob reward,
     In (Did (EnvStep action log_prob reward))
        (r_trace (final (reinforce_learned_baseline env rng theta opt n))) ->
     action = 0%nat /\ log_prob = 0).
Proof.
  split.
  { intros nonfinite theta x Hx.
    set (v := value_of (Net_default theta) x).
    assert (forward (Net_default theta) x = Ok (Categorical_init [v], [v])) as Hfwd
      by (unfold Net_default; by rewrite forward_Net_init).
    unfold call_net. rewrite Hfwd. destruct nonfinite; [done|].
    destruct (singleton_logit v) as (lp & Hlogits & Hdata & _).
    exists (Categorical_init [v]), [v], lp.
    split; [done|]. split; [done|]. split; [done|]. split; [done|].
    split; [apply (sample_singleton multinomial sample_in_range)|]. split; [|done].
    unfold log_prob. by rewrite Hlogits. }
  intros env rng theta opt n.
  destruct (reinforce_completed
              (fun _ st =>
                 forall action log_prob reward,
                   In (Did (EnvStep action log_prob reward)) (r_trace st) ->
                   action = 0%nat /\ log_prob = 0)
              env rng theta opt n) as (_ & _ & Hzero); [..|exact Hzero].
  - by intros action log_prob reward [].
  - intros k st st1 Hold Hep action log_prob reward Hin.
    pose proof (run_episode_cases st (S k)) as Hcases. rewrite Hep in Hcases.
    destruct Hcases
      as (tr & steps & b & _ & _ & _ & _ & Hsteps & _ & _ & _ & _ & Htrace & Hcases).
    rewrite Htrace in Hin. apply in_episode_trace in Hin.
    destruct Hin as [Hin|[(s & [= <-] & Hin)|[Hin|Hin]]].
    + by apply (Hold _ _ reward).
    + by destruct (zero_steps_in _ _ Hsteps Hin) as [r [= -> -> _]].
    + destruct (S k mod 50 =? 0)%nat; [|done]. by destruct Hin as [|[]].
    + destruct Hin as [|[|[Hin|]]]; try done.
      by destruct Hcases as [(_ & _ & l & _ & -> & _)|(_ & -> & _)].
  - intros k st st' Hold ((steps & Htrace & Hsteps & _) & _) action log_prob reward Hin.
    rewrite Htrace in Hin. apply in_app_iff in Hin as [Hin|[[=]|Hin]].
    + by apply (Hold _ _ reward).
    + apply in_map_iff in Hin as (s & [= ->] & Hin).
      by destruct (zero_steps_in _ _ Hsteps Hin) as [r [= -> -> _]].
Qed.

End Run.
End RunFacts.

(** ** The two heads *)

Module HeadFacts.
Import Policy Vocabulary NetFacts.
Open Scope R_scope.

Lemma Linear_init_eq (n m : nat) (which : Params -> LinearParams) (theta theta' : Params) :
  which theta' = which theta -> Linear_init n m which theta' = Linear_init n m which theta.
Proof. intros Heq. unfold Linear_init. by rewrite Heq. Qed.

(** Claim C1, checked on the code.  On every observation of 8 numbers the
    forward pass succeeds and returns the value head's single output together
    with a distribution built from that same output: the distribution has 1
    category, not the 4 of the action space, and the parameters of the policy
    head have no influence on it. *)
Theorem forward_builds_distribution_from_value (theta : Params) (x : list Tensor) :
  length x = 8%nat ->
  exists dist value,
    forward (Net_default theta) x = Ok (dist, value) /\
    length value = 1%nat /\
    dist = Categorical_init value /\
    cardinality dist = 1%nat /\
    cardinality dist <> action_space_n /\
    forall theta',
      shared theta' = shared theta ->
      value_function theta' = value_function theta ->
      forward (Net_default theta') x = Ok (dist, value).
Proof.
  intros Hx. set (v := value_of (Net_default theta) x).
  assert (forward (Net_default theta) x = Ok (Categorical_init [v], [v])) as Hfwd
    by (unfold Net_default; by rewrite forward_Net_init).
  exists (Categorical_init [v]), [v].
  split; [done|]. split; [done|]. split; [done|]. split; [done|].
  split; [by cbv|].
  intros theta' Hshared Hvalue.
  assert (value_of (Net_default theta') x = v) as Hv.
  { unfold v, value_of, hidden, Net_default, Net_init.
    cbn [fc_shared fc_value_function].
    by rewrite (Linear_init_eq 8 128 shared theta theta' Hshared),
               (Linear_init_eq 128 1 value_function theta theta' Hvalue). }
  unfold Net_default. rewrite forward_Net_init by done. cbn [decide].
  fold Net_default. by rewrite Hv.
Qed.

(** Claim C10.  The value head is built with input width 128 whatever
    [h_size] is.  On an input of the right size the forward pass of
    [Net(s_size, h_size, a_size)] raises a shape mismatch when [h_size] is not
    128, and returns a result when it is. *)
Theorem value_head_width_is_hard_coded
    (s_size h_size a_size : nat) (theta : Params) (x : list Tensor) :
  length x = s_size ->
  let net := Net_init s_size h_size a_size theta in
  out_features (fc_shared net) = h_size /\
  in_features (fc_value_function net) = 128%nat /\
  (h_size <> 128%nat -> forward net x = Err ShapeMismatch) /\
  (h_size = 128%nat -> exists dist value, forward net x = Ok (dist, value)).
Proof.
  intros Hx net. split; [done|]. split; [done|].
  unfold net. rewrite forward_Net_init by done.
  split; intros Hh; case_decide; try done. eauto.
Qed.
End HeadFacts.

(** * The statements at the small instance *)

Module Instances.
Import Trainer ReturnComputer Vocabulary Demo.
#[local] Open Scope R_scope.

Lemma demo_reset_shape (e : nat) : length (demo_reset e).2 = 8%nat.
Proof. reflexivity. Qed.

Lemma demo_step_shape (e a : nat) : length (demo_step e a).2.1.1 = 8%nat.
Proof. reflexivity. Qed.

Lemma first_index_in_range (g : unit) (ps : list R) :
  ps <> [] -> ((first_index g ps).2 < length ps)%nat.
Proof. destruct ps; [done|]. cbn. lia. Qed.

Lemma compute_returns_preserves_rewards_witness :
  let h : gmap Heap.loc (list float) := <[7%nat := [0; 0; 10]%float]> ∅ in
  h !! 7%nat = Some [0; 0; 10]%float /\
  exists returns h',
    Heap.compute_returns 7%nat 0.5%float h = Outcome.Ok (returns, h') /\
    h !! returns = None /\
    h' !! returns = Some (ReturnComputer.compute_returns [0; 0; 10]%float 0.5%float) /\
    h' !! 7%nat = Some [0; 0; 10]%float /\
    (forall l xs, h !! l = Some xs -> h' !! l = Some xs) /\
    (xs ← h' !! 7%nat; Some (ReturnComputer.pysum xs)) = Some (ReturnComputer.pysum [0; 0; 10]%float).
Proof.
  cbv zeta. split; [reflexivity|].
  apply (HeapFacts.compute_returns_preserves_rewards
           (<[7%nat := [0; 0; 10]%float]> ∅) 7%nat [0; 0; 10]%float 0.5%float).
  reflexivity.
Defined.

Lemma forward_builds_distribution_from_value_witness :
  length (map const Demo.zeros) = 8%nat /\
  exists dist value,
    forward (Net_default Demo.zero_params) (map const Demo.zeros) = Ok (dist, value) /\
    length value = 1%nat /\
    dist = Categorical_init value /\
    cardinality dist = 1%nat /\
    cardinality dist <> action_space_n /\
    forall theta',
      shared theta' = shared Demo.zero_params ->
      value_function theta' = value_function Demo.zero_params ->
      forward (Net_default theta') (map const Demo.zeros) = Ok (dist, value).
Proof.
  split; [reflexivity|].
  apply (HeadFacts.forward_builds_distribution_from_value
           Demo.zero_params (map const Demo.zeros)).
  reflexivity.
Defined.

Lemma value_head_width_is_hard_coded_witness :
  let net := Net_init 8 64 4 Demo.zero_params in
  length (map const Demo.zeros) = 8%nat /\
  out_features (fc_shared net) = 64%nat /\
  in_features (fc_value_function net) = 128%nat /\
  (64%nat <> 128%nat -> forward net (map const Demo.zeros) = Err ShapeMismatch) /\
  (64%nat = 128%nat -> exists dist value, forward net (map const Demo.zeros) = Ok (dist, value)).
Proof.
  split; [reflexivity|].
  apply (HeadFacts.value_head_width_is_hard_coded
           8 64 4 Demo.zero_params (map const Demo.zeros)).
  reflexivity.
Defined.

Lemma policy_head_gets_no_gradient_witness :
  exists tr l,
    collect Demo.demo_reset Demo.demo_step Demo.first_index Demo.initial = Ok tr /\
    episode_loss tr = Ok l /\
    (forall i j, lp_weight (policy (backward (loss l))) i j = 0%R) /\
    (forall i, lp_bias (policy (backward (loss l))) i = 0%R).
Proof.
  destruct (TrainerFacts.policy_head_gets_no_gradient
              Demo.demo_reset Demo.demo_step Demo.first_index
              demo_reset_shape demo_step_shape
              first_index_in_range Demo.initial)
    as (tr & l & Hcollect & Hloss & _ & _ & Hweight & Hbias).
  exact (ex_intro _ tr (ex_intro _ l
           (conj Hcollect (conj Hloss (conj Hweight Hbias))))).
Defined.

End Instances.

(** * The episode loop at the small instance

    The episodes of the small environment have the rewards 0 then 1: their
    returns differ, every number stays finite, and the run returns. *)

Module RunInstances.
Import Numerics ReturnComputer Vocabulary Notions Demo RealStats NetFacts TrainerFacts
  RunFacts Instances.
#[local] Open Scope R_scope.

Lemma demo_episode_steps (nonfinite : list R -> bool) (theta : Params) (steps : nat)
    (tr : @Trajectory nat unit) :
  nonfinite zeros = false -> t_env tr = 0%nat ->
  exists tr',
    episode_steps demo_step first_index (S (S steps)) nonfinite (Net_default theta)
      zeros tr = Returned tr' /\
    rewards tr' = rewards tr ++ [0; 1].
Proof.
  intros Hnf Henv. cbn [episode_steps].
  pose proof (call_net_default (nonfinite zeros) theta zeros eq_refl) as Hcall.
  cbv zeta in Hcall. rewrite Hnf in Hcall. rewrite Hnf, Hcall.
  cbn [sample first_index]. unfold log_prob at 1.
  cbn [Categorical_init logits map lookup list_lookup].
  rewrite Henv. cbn [demo_step Nat.leb t_env].
  rewrite Hnf, Hcall. unfold log_prob at 1.
  cbn [Categorical_init logits map lookup list_lookup demo_step Nat.leb t_env rewards].
  eexists. split; [reflexivity|]. cbn [rewards INR]. by rewrite <- app_assoc.
Qed.

Lemma demo_collect (st : @Progress nat unit unit) :
  r_nan st = false ->
  exists tr,
    collect_trajectory demo_reset demo_step first_index exact_logits st
    = Returned tr /\
    rewards tr = [0; 1].
Proof.
  intros Hnan. unfold collect_trajectory. rewrite Hnan.
  exact (demo_episode_steps
           (fun state => false || exact_logits (r_params st) state)
           (r_params st) 998
           {| t_env := 0%nat; t_rng := r_rng st; log_probs := []; values := [];
              rewards := []; t_trace := [EnvReset] |} eq_refl eq_refl).
Qed.

Lemma demo_divisor : normalization_divisor [0; 1] gamma <> 0.
Proof.
  rewrite divisor_zero_iff. intros Heq.
  specialize (Heq (0 + gamma * (1 + gamma * 0)) (1 + gamma * 0)).
  unfold gamma in Heq. cbn in Heq. lra.
Qed.

Lemma demo_regular (st : @Progress nat unit unit) (tr : @Trajectory nat unit) :
  collect_trajectory demo_reset demo_step first_index exact_logits st
  = Returned tr ->
  normalization_divisor (rewards tr) gamma <> 0.
Proof.
  intros Hcollect.
  pose proof (collect_cases demo_reset demo_step first_index exact_logits
                demo_reset_shape demo_step_shape first_index_in_range st) as Hcases.
  rewrite Hcollect in Hcases. destruct Hcases as (Hnan & _).
  destruct (demo_collect st Hnan) as (tr' & Hcollect' & Hrewards).
  assert (tr' = tr) as -> by congruence.
  rewrite Hrewards. exact demo_divisor.
Qed.

Lemma demo_run_returns (n : nat) :
  exists st',
    reinforce_learned_baseline demo_reset demo_step first_index
      (gradient_descent lr) exact_logits exact_update
      0%nat tt zero_params tt n = Returned st' /\
    r_nan st' = false.
Proof.
  apply (regular_run_returns demo_reset demo_step first_index (gradient_descent lr)
           exact_logits exact_update
           demo_reset_shape demo_step_shape first_index_in_range); try done.
  exact demo_regular.
Qed.

Lemma one_update_per_episode_witness :
  exists st' chunks,
    reinforce_learned_baseline demo_reset demo_step first_index
      (gradient_descent lr) exact_logits exact_update
      0%nat tt zero_params tt 3 = Returned st' /\
    r_trace st' = concat chunks /\
    Forall2 episode_events (seq 1 3) chunks /\
    count is_backward (r_trace st') = 3%nat /\
    count is_optimizer_step (r_trace st') = 3%nat.
Proof.
  destruct (demo_run_returns 3) as (st' & Hrun & _).
  pose proof (proj2 (proj2 (RunFacts.one_update_per_episode
                              demo_reset demo_step first_index (gradient_descent lr)
                              exact_logits exact_update
                              demo_reset_shape demo_step_shape first_index_in_range))
                0%nat tt zero_params tt 3%nat) as Hblocks.
  rewrite Hrun in Hblocks. destruct Hblocks as (chunks & Hblocks).
  exact (ex_intro _ st' (ex_intro _ chunks (conj Hrun Hblocks))).
Defined.

Lemma rolling_average_is_window_mean_witness :
  exists st',
    reinforce_learned_baseline demo_reset demo_step first_index
      (gradient_descent lr) exact_logits exact_update
      0%nat tt zero_params tt 100 = Returned st' /\
    length (r_scores st') = 100%nat /\
    r_scores_deque st' = lastn 50 (r_scores st') /\
    (forall e average, In (Did (Print e average)) (r_trace st') ->
       (1 <= e <= 100)%nat /\ (e mod 50 = 0)%nat /\
       average = mean (lastn (Nat.min 50 e) (take e (r_scores st')))) /\
    (forall e, (1 <= e <= 100)%nat -> (e mod 50 = 0)%nat ->
       exists average, In (Did (Print e average)) (r_trace st')).
Proof.
  destruct (demo_run_returns 100) as (st' & Hrun & _).
  destruct (proj2 (RunFacts.rolling_average_is_window_mean
                     demo_reset demo_step first_index (gradient_descent lr)
                     exact_logits exact_update
                     demo_reset_shape demo_step_shape first_index_in_range)
              0%nat tt zero_params tt 100%nat) as (k & Hk & Hscores).
  rewrite Hrun in Hk, Hscores. subst k.
  exact (ex_intro _ st' (conj Hrun Hscores)).
Defined.

Lemma every_action_is_zero_witness :
  exists st',
    reinforce_learned_baseline demo_reset demo_step first_index
      (gradient_descent lr) exact_logits exact_update
      0%nat tt zero_params tt 3 = Returned st' /\
    forall action log_prob reward,
      In (Did (EnvStep action log_prob reward)) (r_trace st') ->
      action = 0%nat /\ log_prob = 0%R.
Proof.
  destruct (demo_run_returns 3) as (st' & Hrun & _).
  pose proof (proj2 (RunFacts.every_action_is_zero
                       demo_reset demo_step first_index (gradient_descent lr)
                       exact_logits exact_update
                       demo_reset_shape demo_step_shape first_index_in_range)
                0%nat tt zero_params tt 3%nat) as Hzero.
  rewrite Hrun in Hzero.
  exact (ex_intro _ st' (conj Hrun Hzero)).
Defined.
End RunInstances.

(** * Further properties *)

(** ** The returns as discounted sums, and what normalization forgets *)

Module ReturnExtras.
Import ReturnComputer Vocabulary Notions RealStats ReturnFacts.
#[local] Open Scope R_scope.

Lemma compute_returns_length_any {A : Type} `{Arith A}
    (rewards : list A) (gamma : A) :
  length (compute_returns rewards gamma) = length rewards.
Proof.
  unfold compute_returns, scale, centre. rewrite !length_map.
  by rewrite discounted_returns_eq, returns_from_length.
Qed.

(** Property X1.  The output has one entry per reward, whatever the arithmetic; an empty
    episode gives an empty array. *)
Theorem compute_returns_keeps_length {A : Type} `{Arith A}
    (rewards : list A) (gamma : A) :
  length (compute_returns rewards gamma) = length rewards /\
  (rewards = [] -> compute_returns rewards gamma = []).
Proof.
  split; [apply compute_returns_length_any|].
  intros ->. apply nil_length_inv, (compute_returns_length_any [] gamma).
Qed.

Lemma pysum_imap_mult (gamma : R) (f : nat -> R -> R) (xs : list R) :
  pysum (imap (fun k x => gamma * f k x) xs) = gamma * pysum (imap f xs).
Proof.
  revert f. induction xs as [|x xs IH]; intros f; [cbn; lra|].
  rewrite !imap_cons, !pysum_cons.
  change ((fun k x => gamma * f k x) ∘ S) with (fun k x => gamma * (f ∘ S) k x).
  rewrite IH. lra.
Qed.

Lemma power_sum_cons (gamma r : R) (rewards : list R) :
  power_sum gamma (r :: rewards) = r + gamma * power_sum gamma rewards.
Proof.
  unfold power_sum. rewrite imap_cons, pysum_cons.
  rewrite <- pysum_imap_mult. f_equal; [cbn; lra|]. f_equal.
  apply imap_ext. intros k x _. cbn. lra.
Qed.

Lemma returns_from_head (rewards : list R) (gamma : R) :
  hd 0 (returns_from rewards gamma) = power_sum gamma rewards.
Proof.
  induction rewards as [|r rewards IH]; [reflexivity|].
  cbn [returns_from hd]. rewrite power_sum_cons, <- IH. reflexivity.
Qed.

Lemma returns_from_drop (rewards : list R) (gamma : R) (t : nat) :
  drop t (returns_from rewards gamma) = returns_from (drop t rewards) gamma.
Proof.
  revert t. induction rewards as [|r rewards IH]; intros [|t]; try done.
  cbn [returns_from]. apply IH.
Qed.

Lemma nth_hd_drop (xs : list R) (t : nat) : nth t xs 0 = hd 0 (drop t xs).
Proof. revert t. induction xs as [|x xs IH]; intros [|t]; try done. apply IH. Qed.

(** Property X2.  The return at step [t], before normalization, is the discounted sum of
    the rewards from [t] on: [r_t + gamma r_{t+1} + gamma^2 r_{t+2} + ...]. *)
Theorem discounted_returns_closed_form (rewards : list R) (gamma : R) (t : nat) :
  nth t (discounted_returns rewards gamma) 0 = power_sum gamma (drop t rewards).
Proof.
  rewrite discounted_returns_eq, nth_hd_drop, returns_from_drop.
  apply returns_from_head.
Qed.

Lemma returns_from_scaled (c : R) (rewards : list R) (gamma : R) :
  returns_from (map (Rmult c) rewards) gamma
  = map (Rmult c) (returns_from rewards gamma).
Proof.
  induction rewards as [|r rewards IH]; [done|].
  cbn [map returns_from]. rewrite IH. f_equal.
  destruct (returns_from rewards gamma); cbn; lra.
Qed.

Lemma mean_scaled (c : R) (xs : list R) :
  mean (map (Rmult c) xs) = c * mean xs.
Proof.
  unfold mean. rewrite LossFacts.pysum_mult_l, length_map. real_ops.
  unfold Rdiv. lra.
Qed.

Lemma centre_scaled (c : R) (xs : list R) :
  centre (map (Rmult c) xs) = map (Rmult c) (centre xs).
Proof.
  unfold centre. rewrite mean_scaled, !map_map. apply map_ext.
  intros x. real_ops. lra.
Qed.

Lemma sumsq_scaled (c m : R) (xs : list R) :
  sumsq (c * m) (map (Rmult c) xs) = c * c * sumsq m xs.
Proof.
  induction xs as [|x xs IH]; [cbn; lra|].
  cbn [map]. rewrite !sumsq_cons, IH. lra.
Qed.

Lemma std_scaled (c : R) (xs : list R) :
  0 < c -> std (map (Rmult c) xs) = c * std xs.
Proof.
  intros Hc. rewrite !std_eq, mean_scaled, sumsq_scaled, length_map.
  replace (c * c * sumsq (mean xs) xs / INR (length xs))
    with (c * c * (sumsq (mean xs) xs / INR (length xs)))
    by (unfold Rdiv; lra).
  rewrite sqrt_mult_alt by nra.
  rewrite sqrt_square by lra. reflexivity.
Qed.

(** Property X3.  Multiplying every reward by the same positive factor does not change the
    output: the normalization removes the scale of the rewards.  (For
    returns that are not all equal, where the division is defined.) *)
Theorem compute_returns_scale_invariant (c : R) (rewards : list R) (gamma : R) :
  0 < c ->
  ~ all_equal (discounted_returns rewards gamma) ->
  compute_returns (map (Rmult c) rewards) gamma = compute_returns rewards gamma.
Proof.
  intros Hc Hne.
  assert (std (centre (discounted_returns rewards gamma)) <> 0) as Hs.
  { intros Hs. apply Hne. by apply all_equal_centre, std_zero_all_equal. }
  unfold compute_returns. rewrite !discounted_returns_eq in *.
  rewrite returns_from_scaled, centre_scaled.
  unfold scale. rewrite std_scaled by done. rewrite map_map.
  apply map_ext. intros y. real_ops. field. split; lra.
Qed.

(** Property X4.  The squares of the normalized returns add up to the length of the
    episode, so no entry exceeds its square root in magnitude.  (For returns
    that are not all equal.) *)
Theorem compute_returns_sum_of_squares (rewards : list R) (gamma : R) :
  ~ all_equal (discounted_returns rewards gamma) ->
  let out := compute_returns rewards gamma in
  pysum (map (fun y => y * y) out) = INR (length rewards) /\
  forall y, In y out -> Rabs y <= R_sqrt.sqrt (INR (length rewards)).
Proof.
  intros Hne out.
  assert (std (centre (discounted_returns rewards gamma)) <> 0) as Hs.
  { intros Hs. apply Hne. by apply all_equal_centre, std_zero_all_equal. }
  destruct (scale_centre_stats _ Hs) as [Hmean Hstd].
  fold (compute_returns rewards gamma) in Hmean, Hstd. fold out in Hmean, Hstd.
  assert (length out = length rewards) as Hlen
    by apply compute_returns_length_any.
  assert (rewards <> []) as Hrs.
  { intros ->. apply Hne. by intros x y []. }
  pose proof (length_INR_pos rewards Hrs) as Hn.
  assert (sumsq 0 out = INR (length rewards)) as Hsq.
  { rewrite std_eq, Hmean, Hlen in Hstd.
    pose proof (variance_nonneg 0 out) as Hvar. rewrite Hlen in Hvar.
    apply (f_equal (fun x => x * x)) in Hstd.
    rewrite sqrt_sqrt in Hstd by done.
    apply (Rmult_eq_reg_r (/ INR (length rewards)));
      [|apply Rinv_neq_0_compat; lra].
    unfold Rdiv in Hstd. rewrite Hstd. field. lra. }
  assert (sumsq 0 out = pysum (map (fun y => y * y) out)) as Heq.
  { unfold sumsq. f_equal. apply map_ext. intros y. real_ops. lra. }
  split; [by rewrite <- Heq|].
  intros y Hy. rewrite <- Hsq. clear -Hy.
  induction out as [|x out IH]; [destruct Hy|].
  rewrite sumsq_cons. pose proof (sumsq_nonneg 0 out) as Hpos.
  destruct Hy as [->|Hy].
  - rewrite <- (sqrt_Rsqr_abs y). apply sqrt_le_1_alt. unfold Rsqr. nra.
  - etrans; [by apply IH|]. apply sqrt_le_1_alt.
    pose proof (Rle_0_sqr (x - 0)) as Hx. unfold Rsqr in Hx. lra.
Qed.
End ReturnExtras.

(** ** The forward pass: when it raises *)

Module ForwardExtras.
Import Numerics Vocabulary NetFacts.
#[local] Open Scope R_scope.

(** Property X5.  Calling [Net(s_size, h_size, a_size)] raises a shape
    mismatch exactly when the observation does not have [s_size] entries or
    [h_size] is not 128, whatever the numbers are; it raises no other error
    of the layers; and when it returns, the sizes are right, the logits are
    finite, the value is a single entry and the distribution has a single
    category. *)
Theorem call_raises_shape_mismatch_iff
    (s_size h_size a_size : nat) (theta : Params) (x : list Tensor) (nonfinite : bool) :
  let net := Net_init s_size h_size a_size theta in
  (call_net nonfinite net x = Fails (Raised ShapeMismatch)
     <-> length x <> s_size \/ h_size <> 128%nat) /\
  (forall e, call_net nonfinite net x = Fails (Raised e) -> e = ShapeMismatch) /\
  (forall dist value,
     call_net nonfinite net x = Fine (dist, value) ->
     nonfinite = false /\ length x = s_size /\ h_size = 128%nat /\
     length value = 1%nat /\ cardinality dist = 1%nat).
Proof.
  intros net. unfold net, call_net.
  destruct (decide (length x = s_size)) as [Hx|Hx].
  - rewrite forward_Net_init by done. case_decide as Hh.
    + split; [split; [by destruct nonfinite|by intros [?|?]]|].
      split; [by destruct nonfinite|].
      intros dist value. destruct nonfinite; [done|]. by intros [= <- <-].
    + split; [split; [by right|done]|]. split; [by intros e [= <-]|done].
  - rewrite forward_wrong_size by done.
    split; [split; [by left|done]|]. split; [by intros e [= <-]|done].
Qed.
End ForwardExtras.

(** ** The training loop: steps, scores, and what the update reaches *)

Module TrainerExtras.
Import Trainer ReturnComputer Vocabulary Notions RealStats TensorFacts NetFacts
  LossFacts TrainerFacts ForwardExtras.
#[local] Open Scope R_scope.

(** The value head's output moves by exactly the perturbation of its bias. *)
Lemma value_bias_derivative (theta : Params) (state : list R) :
  jvp (value_of (Net_default theta) (map const state)) (unit_bias ValueHead 0) = 1.
Proof.
  unfold value_of. cbn [jvp t_add].
  assert (flat (unit_bias ValueHead 0)
            (dot (weight (fc_value_function (Net_default theta)) 0%nat)
                 (hidden (Net_default theta) (map const state)))) as Hdot.
  { apply flat_dot; [done|]. unfold hidden.
    apply Forall_map, Forall_map, Forall_forall. intros i _.
    apply flat_relu, flat_add; [|done].
    apply flat_dot; [done|]. apply Forall_map, Forall_forall. by intros. }
  unfold flat in Hdot. rewrite Hdot. cbn. case_decide; [lra|done].
Qed.

Section Run.
Context {EnvState Rng OptState : Type}.
Variable env_reset : EnvState -> EnvState * list R.
Variable env_step : EnvState -> nat -> EnvState * (list R * R * bool).
Variable multinomial : Rng -> list R -> Rng * nat.
Variable optimizer_step : OptState -> Params -> Params -> OptState * Params.

Abbreviation Trajectory := (@Trajectory EnvState Rng).
Abbreviation State := (@State EnvState Rng OptState).
Abbreviation rollout := (rollout env_step multinomial).
Abbreviation collect := (collect env_reset env_step multinomial).

Lemma pysum_squares_nonneg (xs : list R) : 0 <= pysum (map (fun x => x * x) xs).
Proof.
  induction xs as [|x xs IH]; [cbn; lra|].
  cbn [map]. rewrite pysum_cons. pose proof (Rle_0_sqr x) as Hx.
  unfold Rsqr in Hx. lra.
Qed.

Lemma pysum_unit_weights (returns : list R) (values : list Tensor) (d : Params) :
  Forall (fun t => jvp t d = 1) values ->
  pysum (zip_with Rmult (advantages returns values) (map (fun t => jvp t d) values))
  = pysum (advantages returns values).
Proof.
  intros Hvalues. revert returns.
  induction Hvalues as [|v values Hv _ IH]; intros [|G returns]; try done.
  unfold advantages in *. cbn [map zip_with]. rewrite !pysum_cons, IH, Hv. lra.
Qed.

Lemma collect_values (st : State) (tr : Trajectory) :
  collect st = Ok tr ->
  Forall (fun t => jvp t (unit_bias ValueHead 0) = 1) (concat (values tr)).
Proof.
  unfold Trainer.collect. destruct (env_reset (env st)) as [e state]. intros Hrun.
  apply rollout_inv in Hrun as (_ & vs & _ & _ & _ & _ & _ & -> & Hvs).
  cbn [values app]. induction Hvs as [|v vs (state' & ->) _ IH]; [done|].
  cbn [concat app]. constructor; [apply value_bias_derivative|done].
Qed.

(** With this network the policy term of the loss is 0, and the loss is half
    the sum of the squared advantages. *)
Lemma value_loss_alone (tr : Trajectory) :
  trajectory_ok tr ->
  exists l,
    episode_loss tr = Ok l /\
    let A := advantages (compute_returns (rewards tr) gamma) (concat (values tr)) in
    data (policy_loss l) = 0 /\
    data (loss l) = 1 / 2 * pysum (map (fun x => x * x) A) /\
    0 <= data (loss l).
Proof.
  intros [Hlp Hv Hlen Hlen'].
  destruct (concat_singletons (fun t => data t = 0 /\ forall d, jvp t d = 0)
              (log_probs tr) Hlp) as [Hlps_len Hlps].
  destruct (concat_singletons (fun t => True) (values tr)) as [Hvs_len _].
  { eapply Forall_impl; [exact Hv|]. intros [|v [|? ?]] [Hl _]; try done. by exists v. }
  destruct (assemble_loss_ok (compute_returns (rewards tr) gamma)
              (concat (values tr)) (concat (log_probs tr)))
    as (l & Hl & Hpd & _ & Hvd & _ & Hd & _).
  { rewrite compute_returns_length. lia. }
  { rewrite compute_returns_length. lia. }
  assert (data (policy_loss l) = 0) as Hp0.
  { rewrite Hpd. apply pysum_zero, zip_zero_l, Forall_map.
    eapply Forall_impl; [exact Hlps|]. by intros t [Ht _]. }
  exists l. split; [exact Hl|]. cbv zeta.
  split; [done|].
  assert (data (loss l) = 1 / 2 * pysum (map (fun x => x * x)
            (advantages (compute_returns (rewards tr) gamma) (concat (values tr)))))
    as Hloss by (rewrite Hd, Hp0, Hvd; lra).
  split; [done|]. rewrite Hloss.
  pose proof (pysum_squares_nonneg
    (advantages (compute_returns (rewards tr) gamma) (concat (values tr)))). lra.
Qed.

(** The environment is what the training loop is run against: its
    observations have 8 entries, and the sampler returns the index of one of
    the probabilities it is given. *)
Hypothesis reset_shape : forall e, length (env_reset e).2 = 8%nat.
Hypothesis step_shape : forall e a, length (env_step e a).2.1.1 = 8%nat.
Hypothesis sample_in_range :
  forall g ps, ps <> [] -> ((multinomial g ps).2 < length ps)%nat.

(** Property X7.  The update does reach the value head: the gradient of the loss in the
    bias of the value head is the sum over the steps of value minus return,
    the negated sum of the advantages. *)
Theorem value_bias_gradient (st : State) :
  exists tr l,
    collect st = Ok tr /\ episode_loss tr = Ok l /\
    lp_bias (value_function (backward (loss l))) 0
    = - pysum (advantages (compute_returns (rewards tr) gamma) (concat (values tr))).
Proof.
  destruct (collect_ok env_reset env_step multinomial
              reset_shape step_shape sample_in_range st)
    as (tr & steps & Hcollect & Hok & _).
  destruct (episode_loss_ok tr Hok) as (l & Hl & _ & Hjvp & Hdetach & Hp0 & _).
  exists tr, l. split; [done|]. split; [done|].
  cbn [backward value_function grad_linear lp_bias].
  rewrite Hjvp, <- Hdetach, Hp0, pysum_unit_weights; [lra|].
  exact (collect_values st tr Hcollect).
Qed.

End Run.
End TrainerExtras.

(** ** The episode loop: steps, scores, and what the update reaches *)

Module RunExtras.
Import Numerics ReturnComputer Vocabulary Notions RealStats TensorFacts NetFacts
  LossFacts TrainerFacts RunFacts TrainerExtras.
#[local] Open Scope R_scope.

Lemma count_steps_block (old : list run_event) (steps : list event) (b : run_event)
    (report : list run_event) (episode : nat) :
  Forall (fun ev => is_env_step ev = true) steps ->
  is_backward b = true ->
  (report = [] \/ exists average, report = [Did (Print episode average)]) ->
  count is_step
    (old ++ Did EnvReset :: map Did steps ++ [Did ZeroGrad; b; Did OptimizerStep] ++ report)
  = (count is_step old + length steps)%nat.
Proof.
  intros Hsteps Hb Hreport. rewrite count_app. cbn [count is_step is_env_step].
  rewrite count_app, count_steps_all by done.
  assert (is_step b = false) as Hb' by (by destruct b as [[]|]).
  cbn [app count is_step is_env_step]. rewrite Hb'.
  destruct Hreport as [->|[average ->]]; cbn; lia.
Qed.


(** Equal nonzero rewards do not have equal returns: the last return is the
    reward, the one before it is the reward and a discounted one. *)
Lemma returns_from_constant (r gamma : R) (m : nat) :
  exists pre,
    returns_from (repeat r (S (S m))) gamma
    = pre ++ [r + gamma * (r + gamma * 0); r + gamma * 0].
Proof.
  induction m as [|m [pre IH]]; [by exists []|].
  change (repeat r (S (S (S m)))) with (r :: repeat r (S (S m))).
  cbn [returns_from]. rewrite IH. eexists (_ :: pre). reflexivity.
Qed.

Lemma constant_rewards_divisor (r : R) (m : nat) :
  r <> 0 -> normalization_divisor (repeat r (S (S m))) gamma <> 0.
Proof.
  intros Hr. rewrite divisor_zero_iff, ReturnFacts.discounted_returns_eq.
  destruct (returns_from_constant r gamma m) as [pre ->]. intros Heq.
  specialize (Heq (r + gamma * (r + gamma * 0)) (r + gamma * 0)).
  rewrite !in_app_iff in Heq. cbn [In] in Heq.
  specialize (Heq ltac:(auto) ltac:(auto)). unfold gamma in Heq. lra.
Qed.

Section Run.
Context {EnvState Rng OptState : Type}.
Variable env_reset : EnvState -> EnvState * list R.
Variable env_step : EnvState -> nat -> EnvState * (list R * R * bool).
Variable multinomial : Rng -> list R -> Rng * nat.
Variable optimizer_step : OptState -> Params -> Params -> OptState * Params.
Variable nonfinite_logits : Params -> list R -> bool.
Variable nonfinite_update : OptState -> Params -> @Trajectory EnvState Rng -> bool.

Abbreviation Trajectory := (@Trajectory EnvState Rng).
Abbreviation Progress := (@Progress EnvState Rng OptState).
Abbreviation episode_steps := (episode_steps env_step multinomial).
Abbreviation collect_trajectory :=
  (@collect_trajectory EnvState Rng OptState env_reset env_step multinomial
     nonfinite_logits).
Abbreviation run_episode :=
  (run_episode env_reset env_step multinomial optimizer_step
     nonfinite_logits nonfinite_update).
Abbreviation run_episodes :=
  (run_episodes env_reset env_step multinomial optimizer_step
     nonfinite_logits nonfinite_update).
Abbreviation reinforce_learned_baseline :=
  (reinforce_learned_baseline env_reset env_step multinomial optimizer_step
     nonfinite_logits nonfinite_update).

(** An environment that never reports [done] is stepped until the cap. *)
Lemma episode_steps_never_done (nonfinite : list R -> bool) (net : Net) (steps : nat) :
  (forall e a, (env_step e a).2.2 = false) ->
  forall (state : list R) (tr tr' : Trajectory),
    episode_steps steps nonfinite net state tr = Returned tr' ->
    length (rewards tr') = (length (rewards tr) + steps)%nat.
Proof.
  intros Hnever. induction steps as [|steps IH]; intros state tr tr' Hrun.
  - injection Hrun as <-. lia.
  - cbn [Numerics.episode_steps] in Hrun.
    destruct (call_net (nonfinite state) net (map const state)) as [[dist value]|];
      [|done].
    destruct (sample multinomial dist (t_rng tr)) as [g action].
    destruct (log_prob dist action) as [lp|]; [|done].
    pose proof (Hnever (t_env tr) action) as Hdone.
    destruct (env_step (t_env tr) action) as [e [[state' reward] done]].
    cbn in Hdone. subst done.
    apply IH in Hrun. cbn in Hrun. rewrite length_app in Hrun. cbn in Hrun. lia.
Qed.

Lemma episode_steps_constant_reward (nonfinite : list R -> bool) (net : Net)
    (steps : nat) (r : R) :
  (forall e a, (env_step e a).2.2 = false) ->
  (forall e a, (env_step e a).2.1.2 = r) ->
  forall (state : list R) (tr tr' : Trajectory),
    episode_steps steps nonfinite net state tr = Returned tr' ->
    rewards tr' = rewards tr ++ repeat r steps.
Proof.
  intros Hnever Hreward. induction steps as [|steps IH]; intros state tr tr' Hrun.
  - injection Hrun as <-. by rewrite app_nil_r.
  - cbn [Numerics.episode_steps] in Hrun.
    destruct (call_net (nonfinite state) net (map const state)) as [[dist value]|];
      [|done].
    destruct (sample multinomial dist (t_rng tr)) as [g action].
    destruct (log_prob dist action) as [lp|]; [|done].
    pose proof (Hnever (t_env tr) action) as Hdone.
    pose proof (Hreward (t_env tr) action) as Hr.
    destruct (env_step (t_env tr) action) as [e [[state' reward] done]].
    cbn in Hdone, Hr. subst done reward.
    apply IH in Hrun. cbn [rewards] in Hrun. rewrite Hrun, <- app_assoc. done.
Qed.

(** An environment that reports [done] at once is stepped once, when it is
    stepped at all. *)
Lemma episode_steps_always_done (nonfinite : list R -> bool) (net : Net) (steps : nat) :
  (forall e a, (env_step e a).2.2 = true) ->
  forall (state : list R) (tr : Trajectory),
    match episode_steps (S steps) nonfinite net state tr with
    | Returned tr' => length (rewards tr') = S (length (rewards tr))
    | Failed _ tr' => t_trace tr' = t_trace tr
    end.
Proof.
  intros Halways state tr. cbn [Numerics.episode_steps].
  destruct (call_net (nonfinite state) net (map const state)) as [[dist value]|];
    [|done].
  destruct (sample multinomial dist (t_rng tr)) as [g action].
  destruct (log_prob dist action) as [lp|]; [|done].
  pose proof (Halways (t_env tr) action) as Hdone.
  destruct (env_step (t_env tr) action) as [e [[state' reward] done]].
  cbn in Hdone. subst done. cbn. rewrite length_app. cbn. lia.
Qed.

Lemma collect_never_done (st : Progress) (tr : Trajectory) :
  (forall e a, (env_step e a).2.2 = false) ->
  collect_trajectory st = Returned tr -> length (rewards tr) = 1000%nat.
Proof.
  intros Hnever. unfold Numerics.collect_trajectory.
  destruct (env_reset (r_env st)) as [e state]. intros Hrun.
  by apply (episode_steps_never_done _ _ _ Hnever) in Hrun.
Qed.

Lemma collect_constant_reward (st : Progress) (tr : Trajectory) (r : R) :
  (forall e a, (env_step e a).2.2 = false) ->
  (forall e a, (env_step e a).2.1.2 = r) ->
  collect_trajectory st = Returned tr -> rewards tr = repeat r 1000.
Proof.
  intros Hnever Hreward. unfold Numerics.collect_trajectory.
  destruct (env_reset (r_env st)) as [e state]. intros Hrun.
  by apply (episode_steps_constant_reward _ _ _ r Hnever Hreward) in Hrun.
Qed.

Lemma collect_always_done (st : Progress) :
  (forall e a, (env_step e a).2.2 = true) ->
  match collect_trajectory st with
  | Returned tr => length (rewards tr) = 1%nat
  | Failed _ tr => t_trace tr = [EnvReset]
  end.
Proof.
  intros Halways. unfold Numerics.collect_trajectory.
  destruct (env_reset (r_env st)) as [e state].
  exact (episode_steps_always_done _ _ 999 Halways state _).
Qed.

(** The environment is what the training loop is run against: its
    observations have 8 entries, and the sampler returns the index of one of
    the probabilities it is given. *)
Hypothesis reset_shape : forall e, length (env_reset e).2 = 8%nat.
Hypothesis step_shape : forall e a, length (env_step e a).2.1.1 = 8%nat.
Hypothesis sample_in_range :
  forall g ps, ps <> [] -> ((multinomial g ps).2 < length ps)%nat.

Abbreviation run_episode_cases :=
  (run_episode_cases env_reset env_step multinomial optimizer_step
     nonfinite_logits nonfinite_update reset_shape step_shape sample_in_range).
Abbreviation reinforce_outcome :=
  (reinforce_outcome env_reset env_step multinomial optimizer_step
     nonfinite_logits nonfinite_update reset_shape step_shape sample_in_range).
Abbreviation reinforce_completed :=
  (reinforce_completed env_reset env_step multinomial optimizer_step
     nonfinite_logits nonfinite_update reset_shape step_shape sample_in_range).

(** What a completed episode has added to the steps of the run. *)
Lemma episode_adds_steps (st st' : Progress) (episode : nat) :
  run_episode st episode = Returned st' ->
  exists tr steps,
    collect_trajectory st = Returned tr /\
    rewards tr = step_rewards steps /\ length (rewards tr) = length steps /\
    (1 <= length steps <= 1000)%nat /\
    count is_step (r_trace st') = (count is_step (r_trace st) + length steps)%nat.
Proof.
  intros Hep. pose proof (run_episode_cases st episode) as Hcases.
  rewrite Hep in Hcases.
  destruct Hcases
    as (tr & steps & b & Hcollect & _ & _ & _ & Hsteps & Hlen & Hrewards & _ & _
        & Htrace & Hcases).
  apply zero_steps_env in Hsteps.
  exists tr, steps. split; [done|]. split; [done|].
  split; [by rewrite Hrewards, step_rewards_length|]. split; [done|].
  rewrite Htrace. apply (count_steps_block _ _ _ _ episode); [done| |].
  - by destruct Hcases as [(_ & _ & l & _ & -> & _)|(_ & -> & _)].
  - destruct (episode mod 50 =? 0)%nat; eauto.
Qed.

(** What an episode that was not completed has added to them. *)
Lemma interrupted_adds_steps (st st' : Progress) :
  interrupted st st' ->
  exists steps : list event,
    (length steps < 1000)%nat /\
    count is_step (r_trace st') = (count is_step (r_trace st) + length steps)%nat.
Proof.
  intros ((steps & Htrace & Hsteps & Hlen & _) & _).
  apply zero_steps_env in Hsteps. exists steps. split; [done|].
  rewrite Htrace, count_app. cbn [count is_step is_env_step].
  by rewrite count_steps_all.
Qed.

(** Property X9.  Every completed episode takes at least one and at most
    1000 environment steps: a run of [n] episodes that returns has stepped
    the environment between [n] and [1000 n] times, and one that raises
    fewer than [1000 n] times. *)
Theorem environment_steps_bounded (env : EnvState) (rng : Rng)
    (theta : Params) (opt : OptState) (n : nat) :
  match reinforce_learned_baseline env rng theta opt n with
  | Returned st' => (n <= count is_step (r_trace st') <= 1000 * n)%nat
  | Failed f st' => f = NonFinite /\ (count is_step (r_trace st') < 1000 * n)%nat
  end.
Proof.
  pose proof (reinforce_outcome
                (fun k st => (k <= count is_step (r_trace st) <= 1000 * k)%nat)
                env rng theta opt n) as Hrun.
  specialize (Hrun ltac:(cbn; lia)).
  match type of Hrun with ?step -> _ => assert step as Hstep end.
  { intros k st st1 Hk Hep.
    destruct (episode_adds_steps st st1 (S k) Hep) as (tr & steps & _ & _ & _ & Hlen & ->).
    lia. }
  specialize (Hrun Hstep).
  destruct (reinforce_learned_baseline env rng theta opt n) as [st'|f st']; [done|].
  destruct Hrun as (-> & k & st'' & Hk & Hcount & Hint & _).
  destruct (interrupted_adds_steps st'' st' Hint) as (steps & Hlen & ->).
  split; [done|]. lia.
Qed.


(** Property X6.  With this network the loss that is minimized is the value
    loss alone: in an episode that leaves numbers in the parameters the
    policy term is 0, and the loss handed to [backward()] is half the sum of
    the squared advantages, which is never negative. *)
Theorem loss_is_value_loss (st st' : Progress) (episode : nat) :
  run_episode st episode = Returned st' ->
  r_nan st' = false ->
  exists tr l,
    collect_trajectory st = Returned tr /\ episode_loss tr = Ok l /\
    In (Did (Backward (data (loss l)))) (r_trace st') /\
    let A := advantages (compute_returns (rewards tr) gamma) (concat (values tr)) in
    data (policy_loss l) = 0 /\
    data (loss l) = 1 / 2 * pysum (map (fun x => x * x) A) /\
    0 <= data (loss l).
Proof.
  intros Hep Hnan. pose proof (run_episode_cases st episode) as Hcases.
  rewrite Hep in Hcases.
  destruct Hcases
    as (tr & steps & b & Hcollect & _ & Hok & _ & _ & _ & _ & _ & _ & Htrace & Hcases).
  destruct Hcases as [(_ & _ & l & Hl & -> & _)|(_ & _ & _ & Hnan')]; [|congruence].
  destruct (value_loss_alone tr Hok) as (l' & Hl' & Hloss).
  assert (l' = l) as -> by congruence.
  exists tr, l. split; [done|]. split; [done|]. split; [|done].
  rewrite Htrace. apply in_app_iff. right. right.
  apply in_app_iff. right. cbn. auto.
Qed.

(** Property X10.  The step cap: against an environment that never reports
    [done], every completed episode takes exactly 1000 steps. *)
Theorem never_done_runs_to_the_cap (env : EnvState) (rng : Rng)
    (theta : Params) (opt : OptState) (n : nat) :
  (forall e a, (env_step e a).2.2 = false) ->
  match reinforce_learned_baseline env rng theta opt n with
  | Returned st' => count is_step (r_trace st') = (1000 * n)%nat
  | Failed f st' =>
    f = NonFinite /\
    exists k, (k < n)%nat /\
      (1000 * k <= count is_step (r_trace st') < 1000 * k + 1000)%nat
  end.
Proof.
  intros Hnever.
  pose proof (reinforce_outcome
                (fun k st => count is_step (r_trace st) = (1000 * k)%nat)
                env rng theta opt n eq_refl) as Hrun.
  match type of Hrun with ?step -> _ => assert step as Hstep end.
  { intros k st st1 Hk Hep.
    destruct (episode_adds_steps st st1 (S k) Hep)
      as (tr & steps & Hcollect & _ & Hlen & _ & ->).
    apply (collect_never_done _ _ Hnever) in Hcollect. lia. }
  specialize (Hrun Hstep).
  destruct (reinforce_learned_baseline env rng theta opt n) as [st'|f st']; [done|].
  destruct Hrun as (-> & k & st'' & Hk & Hcount & Hint & _).
  destruct (interrupted_adds_steps st'' st' Hint) as (steps & Hlen & ->).
  split; [done|]. exists k. split; [done|]. lia.
Qed.

(** Property X11.  The early exit, and what it costs: against an environment
    that reports [done] on every step, an episode that is completed has
    taken one step, its single return is normalized to [0 / 0], and it
    leaves NaN in the parameters; so a run of two or more episodes never
    returns: it raises in its first or second episode, having taken at most
    one step and recorded at most one score. *)
Theorem always_done_takes_one_step (env : EnvState) (rng : Rng)
    (theta : Params) (opt : OptState) :
  (forall e a, (env_step e a).2.2 = true) ->
  (forall (st st' : Progress) (episode : nat),
     run_episode st episode = Returned st' ->
     count is_step (r_trace st') = S (count is_step (r_trace st)) /\
     r_nan st' = true) /\
  (forall m,
     exists st',
       reinforce_learned_baseline env rng theta opt (S (S m)) = Failed NonFinite st' /\
       (count is_step (r_trace st') <= 1)%nat /\
       (length (r_scores st') <= 1)%nat).
Proof.
  intros Halways.
  match goal with |- ?per_episode /\ _ => assert per_episode as Hepisode end.
  { intros st st' episode Hep.
    destruct (episode_adds_steps st st' episode Hep)
      as (tr & steps & Hcollect & _ & Hlen & _ & Hcount).
    pose proof (collect_always_done st Halways) as Hone. rewrite Hcollect in Hone.
    split; [lia|].
    pose proof (run_episode_cases st episode) as Hcases. rewrite Hep in Hcases.
    destruct Hcases
      as (tr' & steps' & b & Hcollect' & _ & _ & _ & _ & _ & _ & _ & _ & _ & Hcases).
    assert (tr' = tr) as -> by congruence.
    destruct Hcases as [(Hdiv & _)|(_ & _ & _ & Hnan)]; [|done].
    destruct Hdiv. apply short_divisor_zero. lia. }
  split; [exact Hepisode|].
  intros m. unfold Numerics.reinforce_learned_baseline.
  set (st0 := {| r_env := env |}).
  cbn [seq Numerics.run_episodes].
  pose proof (run_episode_cases st0 1) as Hfirst.
  destruct (run_episode st0 1) as [st1|f st1] eqn:Hep1.
  - destruct (Hepisode st0 st1 1%nat Hep1) as [Hcount Hnan].
    destruct Hfirst as (tr & steps & b & _ & _ & _ & _ & _ & _ & _ & Hscores & _).
    pose proof (run_episode_cases st1 2) as Hsecond.
    destruct (run_episode st1 2) as [st2|f st2].
    + destruct Hsecond as (tr2 & steps2 & b2 & _ & Hnan' & _). congruence.
    + destruct Hsecond as (-> & ((steps2 & Htrace & _ & _ & Hnil) & Hscores2 & _) & _).
      exists st2. split; [done|].
      rewrite Htrace, (Hnil Hnan), count_app, Hcount, Hscores2, Hscores.
      cbn. lia.
  - destruct Hfirst as (-> & Hint & _).
    exists st1. split; [done|].
    pose proof (collect_always_done st0 Halways) as Hone.
    unfold Numerics.run_episode in Hep1.
    destruct (collect_trajectory st0) as [tr|f tr].
    + destruct (returns_are_nan (rewards tr) || nonfinite_update _ _ tr); [done|].
      destruct (episode_loss tr); [|done].
      by destruct (optimizer_step _ _ _).
    + injection Hep1 as _ <-. cbn [r_trace r_scores]. rewrite Hone. cbn. lia.
Qed.

(** Property X8.  Training never changes the policy head.  Under an
    optimizer that leaves alone the parameters whose gradient is zero, the
    weights and biases of [fc_policy] are the initial ones after any number
    of episodes, however the run ends. *)
Theorem policy_head_is_never_trained (env : EnvState) (rng : Rng)
    (theta : Params) (opt : OptState) (n : nat) :
  (forall o th g,
     (forall i j, lp_weight (policy g) i j = 0) ->
     (forall i, lp_bias (policy g) i = 0) ->
     (forall i j, lp_weight (policy (optimizer_step o th g).2) i j
                  = lp_weight (policy th) i j) /\
     (forall i, lp_bias (policy (optimizer_step o th g).2) i
                = lp_bias (policy th) i)) ->
  let st' := final (reinforce_learned_baseline env rng theta opt n) in
  (forall i j, lp_weight (policy (r_params st')) i j = lp_weight (policy theta) i j) /\
  (forall i, lp_bias (policy (r_params st')) i = lp_bias (policy theta) i).
Proof.
  intros Hopt.
  destruct (reinforce_completed
              (fun _ st =>
                 (forall i j, lp_weight (policy (r_params st)) i j
                              = lp_weight (policy theta) i j) /\
                 (forall i, lp_bias (policy (r_params st)) i = lp_bias (policy theta) i))
              env rng theta opt n) as (_ & _ & Hpolicy); [..|exact Hpolicy].
  - done.
  - intros k st st1 [Hw Hb] Hep.
    pose proof (run_episode_cases st (S k)) as Hcases. rewrite Hep in Hcases.
    destruct Hcases
      as (tr & steps & b & _ & _ & Hok & _ & _ & _ & _ & _ & _ & _ & Hcases).
    destruct Hcases as [(_ & _ & l & Hl & _ & Hstep & _)|(_ & _ & -> & _)]; [|done].
    destruct (episode_loss_ok tr Hok) as (l' & Hl' & _ & _ & _ & _ & Hgrad).
    assert (l' = l) as -> by congruence.
    destruct (Hopt (r_opt st) (r_params st) (backward (loss l))) as [Hw' Hb'].
    { intros i j. apply Hgrad. }
    { intros i. apply Hgrad. }
    rewrite <- Hstep in Hw', Hb'. cbn [snd] in Hw', Hb'.
    split; [intros i j; by rewrite Hw'|intros i; by rewrite Hb'].
  - intros k st st' [Hw Hb] (_ & _ & _ & -> & _). done.
Qed.

End Run.
End RunExtras.

(** ** The watching cells *)

Module WatchExtras.
Import Watch Vocabulary Notions NetFacts TrainerFacts RunFacts.
#[local] Open Scope R_scope.

Section Loops.
Context {EnvState Rng : Type}.
Variable env_reset : EnvState -> EnvState * list R.
Variable env_step : EnvState -> nat -> EnvState * (list R * R * bool).
Variable action_space_sample : Rng -> Rng * nat.
Variable multinomial : Rng -> list R -> Rng * nat.

Lemma random_loop_trace (steps : nat) :
  forall (env : EnvState) (rng : Rng) (evs : list watch_event),
    exists its,
      length its = steps /\
      (random_loop env_reset env_step action_space_sample steps env rng evs).2
      = evs ++ concat (map iteration_events its).
Proof.
  induction steps as [|steps IH]; intros env rng evs.
  - exists []. by rewrite app_nil_r.
  - cbn [random_loop].
    destruct (action_space_sample rng) as [g action].
    destruct (env_step env action) as [e [[state reward] done]].
    destruct done.
    + destruct (env_reset e) as [e' state'].
      destruct (IH e' g (((evs ++ [Render]) ++ [Step action true]) ++ [Reset]))
        as (its & Hlen & ->).
      exists ((action, true) :: its). split; [cbn; lia|].
      cbn. by rewrite <- !app_assoc.
    + destruct (IH e g ((evs ++ [Render]) ++ [Step action false]))
        as (its & Hlen & ->).
      exists ((action, false) :: its). split; [cbn; lia|].
      cbn. by rewrite <- !app_assoc.
Qed.

(** Property X13.  The random-policy cell always goes through 500 iterations, whatever the
    environment answers: it resets once at the start, renders before every
    step, resets again after exactly the steps that end an episode, and
    closes the environment at the end. *)
Theorem watch_random_policy_trace (env : EnvState) (rng : Rng) :
  exists its,
    length its = 500%nat /\
    (watch_random_policy env_reset env_step action_space_sample env rng).2
    = watch_trace its.
Proof.
  unfold watch_random_policy. destruct (env_reset env) as [e state].
  destruct (random_loop_trace 500 e rng [Reset]) as (its & Hlen & Htrace).
  destruct (random_loop _ _ _ 500 e rng [Reset]) as [[e' g] evs].
  cbn [snd] in *. exists its. split; [done|]. by rewrite Htrace.
Qed.

Hypothesis reset_shape : forall e, length (env_reset e).2 = 8%nat.
Hypothesis step_shape : forall e a, length (env_step e a).2.1.1 = 8%nat.
Hypothesis sample_in_range :
  forall g ps, ps <> [] -> ((multinomial g ps).2 < length ps)%nat.

Lemma agent_loop_trace (nonfinite : list R -> bool) (theta : Params) (steps : nat) :
  forall (env : EnvState) (rng : Rng) (state : list R) (evs : list watch_event),
    length state = 8%nat ->
    exists its,
      Forall (fun it => it.1 = 0%nat) its /\
      match agent_loop env_reset env_step multinomial steps nonfinite
              (Net_default theta) env rng state evs with
      | Returned (env', rng', evs') =>
        evs' = evs ++ concat (map iteration_events its) /\ length its = steps /\
        (steps <> 0%nat -> nonfinite state = false)
      | Failed f (env', rng', evs') =>
        f = NonFinite /\ (exists x, nonfinite x = true) /\
        evs' = evs ++ concat (map iteration_events its) /\
        (length its < steps)%nat /\ (nonfinite state = true -> its = [])
      end.
Proof.
  induction steps as [|steps IH]; intros env rng state evs Hstate.
  - exists []. split; [done|]. cbn. by rewrite app_nil_r.
  - cbn [agent_loop].
    pose proof (call_net_default (nonfinite state) theta state Hstate) as Hcall.
    cbv zeta in Hcall. rewrite Hcall. clear Hcall.
    destruct (nonfinite state) eqn:Hnf.
    { exists []. split; [done|]. split; [done|]. split; [by exists state|].
      rewrite app_nil_r. split; [done|]. split; [cbn; lia|done]. }
    set (v := value_of (Net_default theta) (map const state)).
    pose proof (sample_singleton multinomial sample_in_range v rng) as Haction.
    destruct (sample multinomial (Categorical_init [v]) rng) as [g action].
    cbn in Haction. subst action.
    pose proof (step_shape env 0%nat) as Hshape.
    destruct (env_step env 0%nat) as [e [[state' reward] done]].
    cbn in Hshape. destruct done.
    + pose proof (reset_shape e) as Hshape'.
      destruct (env_reset e) as [e' state'']. cbn in Hshape'.
      destruct (IH e' g state'' (((evs ++ [Render]) ++ [Step 0 true]) ++ [Reset]) Hshape')
        as (its & Hits & Hloop).
      exists ((0%nat, true) :: its). split; [by constructor|].
      destruct (agent_loop _ _ _ steps nonfinite _ e' g state'' _) as [[[? ?] ?]|f [[? ?] ?]].
      * destruct Hloop as (-> & Hlen & _).
        split; [cbn; by rewrite <- !app_assoc|]. split; [cbn; lia|done].
      * destruct Hloop as (-> & Hx & -> & Hlen & _).
        split; [done|]. split; [done|].
        split; [cbn; by rewrite <- !app_assoc|]. split; [cbn; lia|done].
    + destruct (IH e g state' ((evs ++ [Render]) ++ [Step 0 false]) Hshape)
        as (its & Hits & Hloop).
      exists ((0%nat, false) :: its). split; [by constructor|].
      destruct (agent_loop _ _ _ steps nonfinite _ e g state' _) as [[[? ?] ?]|f [[? ?] ?]].
      * destruct Hloop as (-> & Hlen & _).
        split; [cbn; by rewrite <- !app_assoc|]. split; [cbn; lia|done].
      * destruct Hloop as (-> & Hx & -> & Hlen & _).
        split; [done|]. split; [done|].
        split; [cbn; by rewrite <- !app_assoc|]. split; [cbn; lia|done].
Qed.

(** Property X14.  The trained-agent cell, for the network that training has
    left.  Whatever numbers its parameters are, every step is taken with
    action 0; when the loop returns it has gone through 2000 iterations,
    with the same shape of trace as the random cell, and the environment is
    closed; when it raises, it raises at a call of the network whose logits
    are not finite, after fewer iterations, and the environment is left
    open.  A network whose parameters hold NaN, as after an episode with
    equal returns, makes the cell raise right after its reset. *)
Theorem watch_agent_trace (nonfinite : list R -> bool) (theta : Params)
    (env : EnvState) (rng : Rng) :
  exists its,
    Forall (fun it => it.1 = 0%nat) its /\
    match watch_agent env_reset env_step multinomial nonfinite (Net_default theta)
            env rng with
    | Returned (env', rng', evs) =>
      evs = watch_trace its /\ length its = 2000%nat /\
      (exists x, nonfinite x = false)
    | Failed f (env', rng', evs) =>
      f = NonFinite /\ (exists x, nonfinite x = true) /\
      evs = Reset :: concat (map iteration_events its) /\
      (length its < 2000)%nat /\
      ((forall x, nonfinite x = true) -> its = [])
    end.
Proof.
  unfold watch_agent. pose proof (reset_shape env) as Hshape.
  destruct (env_reset env) as [e state]. cbn in Hshape.
  destruct (agent_loop_trace nonfinite theta 2000 e rng state [Reset] Hshape)
    as (its & Hits & Hloop).
  exists its. split; [done|].
  destruct (agent_loop _ _ _ 2000 nonfinite _ e rng state _) as [[[? ?] ?]|f [[? ?] ?]].
  - destruct Hloop as (-> & Hlen & Hnf).
    split; [unfold watch_trace; by rewrite <- app_assoc|].
    split; [done|]. exists state. by apply Hnf.
  - destruct Hloop as (-> & Hx & -> & Hlen & Hnil).
    split; [done|]. split; [done|]. split; [done|]. split; [done|].
    intros Hall. by apply Hnil.
Qed.
End Loops.
End WatchExtras.

(** * The further statements at the small instance *)

Module MoreInstances.
Import Trainer Watch ReturnComputer Vocabulary Notions Demo Environments Instances
  RunFacts RunInstances.
#[local] Open Scope R_scope.

Lemma ones_not_all_equal : ~ all_equal (discounted_returns [1; 1; 1] 1).
Proof.
  intros Heq.
  specialize (Heq (1 + 1 * (1 + 1 * (1 + 1 * 0))) (1 + 1 * (1 + 1 * 0))).
  cbn in Heq. lra.
Qed.

Lemma endless_step_shape (e a : nat) : length (endless_step e a).2.1.1 = 8%nat.
Proof. reflexivity. Qed.

Lemma instant_step_shape (e a : nat) : length (instant_step e a).2.1.1 = 8%nat.
Proof. reflexivity. Qed.

Lemma gradient_descent_keeps_zero_gradient (o : unit) (th g : Params) :
  (forall i j, lp_weight (policy g) i j = 0) ->
  (forall i, lp_bias (policy g) i = 0) ->
  (forall i j, lp_weight (policy (gradient_descent lr o th g).2) i j
               = lp_weight (policy th) i j) /\
  (forall i, lp_bias (policy (gradient_descent lr o th g).2) i
             = lp_bias (policy th) i).
Proof.
  intros Hw Hb. split; [intros i j|intros i]; cbn; rewrite ?Hw, ?Hb; lra.
Qed.

Lemma compute_returns_scale_invariant_witness :
  0 < 2 /\ ~ all_equal (discounted_returns [1; 1; 1] 1) /\
  compute_returns (map (Rmult 2) [1; 1; 1]) 1 = compute_returns [1; 1; 1] 1.
Proof.
  split; [lra|]. split; [exact ones_not_all_equal|].
  apply (ReturnExtras.compute_returns_scale_invariant 2 [1; 1; 1] 1);
    [lra|exact ones_not_all_equal].
Defined.

Lemma compute_returns_sum_of_squares_witness :
  ~ all_equal (discounted_returns [1; 1; 1] 1) /\
  pysum (map (fun y => y * y) (compute_returns [1; 1; 1] 1)) = INR (length [1; 1; 1]) /\
  forall y, In y (compute_returns [1; 1; 1] 1) ->
    Rabs y <= R_sqrt.sqrt (INR (length [1; 1; 1])).
Proof.
  split; [exact ones_not_all_equal|].
  exact (ReturnExtras.compute_returns_sum_of_squares [1; 1; 1] 1 ones_not_all_equal).
Defined.

Lemma value_bias_gradient_witness :
  exists tr l,
    collect demo_reset demo_step first_index initial = Ok tr /\
    episode_loss tr = Ok l /\
    lp_bias (value_function (backward (loss l))) 0
    = - pysum (advantages (compute_returns (rewards tr) gamma) (concat (values tr))).
Proof.
  exact (TrainerExtras.value_bias_gradient demo_reset demo_step first_index
           demo_reset_shape demo_step_shape first_index_in_range initial).
Defined.

Lemma endless_regular (st : @Progress nat unit unit) (tr : @Trajectory nat unit) :
  collect_trajectory demo_reset endless_step first_index exact_logits st
  = Returned tr ->
  normalization_divisor (rewards tr) gamma <> 0.
Proof.
  intros Hcollect.
  rewrite (RunExtras.collect_constant_reward demo_reset endless_step first_index
             exact_logits st tr 1) by done.
  apply (RunExtras.constant_rewards_divisor 1 998). lra.
Qed.

Lemma endless_run_returns (n : nat) :
  exists st',
    reinforce_learned_baseline demo_reset endless_step first_index
      (gradient_descent lr) exact_logits exact_update
      0%nat tt zero_params tt n = Returned st'.
Proof.
  destruct (regular_run_returns demo_reset endless_step first_index (gradient_descent lr)
              exact_logits exact_update
              demo_reset_shape endless_step_shape first_index_in_range
              0%nat tt zero_params tt n) as (st' & Hrun & _); try done.
  - exact endless_regular.
  - by exists st'.
Qed.

Lemma demo_first_episode :
  exists st',
    run_episode demo_reset demo_step first_index (gradient_descent lr)
      exact_logits exact_update start 1 = Returned st' /\
    r_nan st' = false.
Proof.
  destruct (demo_run_returns 1) as (st' & Hrun & Hnan).
  unfold reinforce_learned_baseline in Hrun. cbn [seq run_episodes] in Hrun.
  fold start in Hrun.
  destruct (run_episode demo_reset demo_step first_index (gradient_descent lr)
              exact_logits exact_update start 1) as [st1|f st1];
    [|done].
  injection Hrun as ->. by exists st'.
Qed.

Lemma environment_steps_bounded_witness :
  exists st',
    reinforce_learned_baseline demo_reset demo_step first_index
      (gradient_descent lr) exact_logits exact_update
      0%nat tt zero_params tt 3 = Returned st' /\
    (3 <= count is_step (r_trace st') <= 1000 * 3)%nat.
Proof.
  destruct (demo_run_returns 3) as (st' & Hrun & _).
  pose proof (RunExtras.environment_steps_bounded demo_reset demo_step first_index
                (gradient_descent lr) exact_logits exact_update
                demo_reset_shape demo_step_shape first_index_in_range
                0%nat tt zero_params tt 3%nat) as Hbound.
  rewrite Hrun in Hbound.
  exact (ex_intro _ st' (conj Hrun Hbound)).
Defined.


Lemma loss_is_value_loss_witness :
  exists st' tr l,
    run_episode demo_reset demo_step first_index (gradient_descent lr)
      exact_logits exact_update start 1 = Returned st' /\
    r_nan st' = false /\
    collect_trajectory demo_reset demo_step first_index exact_logits start
    = Returned tr /\
    episode_loss tr = Ok l /\
    In (Did (Backward (data (loss l)))) (r_trace st') /\
    data (policy_loss l) = 0 /\ 0 <= data (loss l).
Proof.
  destruct demo_first_episode as (st' & Hep & Hnan).
  destruct (RunExtras.loss_is_value_loss demo_reset demo_step first_index
              (gradient_descent lr) exact_logits exact_update
              demo_reset_shape demo_step_shape first_index_in_range
              start st' 1%nat Hep Hnan)
    as (tr & l & Hcollect & Hloss & Hin & Hpolicy & _ & Hpos).
  exact (ex_intro _ st' (ex_intro _ tr (ex_intro _ l
           (conj Hep (conj Hnan (conj Hcollect (conj Hloss
              (conj Hin (conj Hpolicy Hpos))))))))).
Defined.

Lemma never_done_runs_to_the_cap_witness :
  exists st',
    reinforce_learned_baseline demo_reset endless_step first_index
      (gradient_descent lr) exact_logits exact_update
      0%nat tt zero_params tt 2 = Returned st' /\
    count is_step (r_trace st') = (1000 * 2)%nat.
Proof.
  destruct (endless_run_returns 2) as (st' & Hrun).
  pose proof (RunExtras.never_done_runs_to_the_cap demo_reset endless_step first_index
                (gradient_descent lr) exact_logits exact_update
                demo_reset_shape endless_step_shape first_index_in_range
                0%nat tt zero_params tt 2%nat (fun e a => eq_refl)) as Hcap.
  rewrite Hrun in Hcap.
  exact (ex_intro _ st' (conj Hrun Hcap)).
Defined.

Lemma always_done_takes_one_step_witness :
  exists st',
    reinforce_learned_baseline demo_reset instant_step first_index
      (gradient_descent lr) exact_logits exact_update
      0%nat tt zero_params tt 2 = Failed NonFinite st' /\
    (count is_step (r_trace st') <= 1)%nat /\
    (length (r_scores st') <= 1)%nat.
Proof.
  exact (proj2 (RunExtras.always_done_takes_one_step demo_reset instant_step first_index
                  (gradient_descent lr) exact_logits exact_update
                  demo_reset_shape instant_step_shape first_index_in_range
                  0%nat tt zero_params tt (fun e a => eq_refl)) 0%nat).
Defined.

Lemma policy_head_is_never_trained_witness :
  let st' := final (reinforce_learned_baseline demo_reset demo_step first_index
                      (gradient_descent lr) exact_logits exact_update
                      0%nat tt zero_params tt 3) in
  (forall i j, lp_weight (policy (r_params st')) i j
               = lp_weight (policy zero_params) i j) /\
  (forall i, lp_bias (policy (r_params st')) i = lp_bias (policy zero_params) i).
Proof.
  exact (RunExtras.policy_head_is_never_trained demo_reset demo_step first_index
           (gradient_descent lr) exact_logits exact_update
           demo_reset_shape demo_step_shape first_index_in_range
           0%nat tt zero_params tt 3%nat gradient_descent_keeps_zero_gradient).
Defined.


Lemma watch_agent_trace_witness :
  (exists env' rng' its,
     watch_agent demo_reset demo_step first_index (exact_logits zero_params)
       (Net_default zero_params) 0%nat tt
     = Returned (env', rng', watch_trace its) /\
     length its = 2000%nat /\ Forall (fun it => it.1 = 0%nat) its) /\
  (exists env' rng',
     watch_agent demo_reset demo_step first_index (fun _ => true)
       (Net_default zero_params) 0%nat tt
     = Failed NonFinite (env', rng', [Reset])).
Proof.
  split.
  - destruct (WatchExtras.watch_agent_trace demo_reset demo_step first_index
                demo_reset_shape demo_step_shape first_index_in_range
                (exact_logits zero_params) zero_params 0%nat tt)
      as (its & Hits & Hloop).
    destruct (watch_agent demo_reset demo_step first_index
                (exact_logits zero_params) (Net_default zero_params) 0%nat tt)
      as [[[env' rng'] evs]|f [[env' rng'] evs]].
    + destruct Hloop as (-> & Hlen & _).
      exact (ex_intro _ env' (ex_intro _ rng' (ex_intro _ its
               (conj eq_refl (conj Hlen Hits))))).
    + destruct Hloop as (_ & [x Hx] & _). discriminate Hx.
  - destruct (WatchExtras.watch_agent_trace demo_reset demo_step first_index
                demo_reset_shape demo_step_shape first_index_in_range
                (fun _ => true) zero_params 0%nat tt)
      as (its & Hits & Hloop).
    destruct (watch_agent demo_reset demo_step first_index
                (fun _ => true) (Net_default zero_params) 0%nat tt)
      as [[[env' rng'] evs]|f [[env' rng'] evs]].
    + destruct Hloop as (_ & _ & [x Hx]). discriminate Hx.
    + destruct Hloop as (-> & _ & -> & _ & Hnil).
      rewrite (Hnil (fun _ => eq_refl)).
      exact (ex_intro _ env' (ex_intro _ rng' eq_refl)).
Defined.
End MoreInstances.
